(** * The Bubbly schema engine: schema graph and derived GraphQL schema

    A shallow embedding of [store/schemagraph.go], [store/graphql.go],
    [store/cockroachdb.go] and of the store facade ([Store.Create]), with the
    properties of the schema graph and of the GraphQL schema builder that the
    specification states about them. *)

From stdpp Require Import gmap strings list fin_maps.

Open Scope string_scope.
Open Scope list_scope.
Open Scope nat_scope.

Set Warnings "-register-all,-clear-no-such-hyp".

(** ** Go values shared by all the packages *)

(** A Go [error] value is modelled by its message; [fmt.Errorf("ctx: %w", err)]
    prefixes the message of the wrapped error. *)
Definition error := string.

Definition Errorf (ctx : string) (err : error) : error := ctx +:+ err.

(** A Go call either returns or panics. *)
Inductive result (A : Type) :=
| Ok (a : A)
| Panic (msg : string).
Arguments Ok {A} a.
Arguments Panic {A} msg.

Global Instance result_bind : MBind result := λ A B k r,
  match r with
  | Ok a => k a
  | Panic msg => Panic msg
  end.

(** ** The schema description ([core.Table]) *)

(** The type of a field is a [cty.Type] of the go-cty library: the primitive
    types, the collection types and the structural types. *)
Inductive ctyType :=
| ctyBool
| ctyNumber
| ctyString
| ctyList (elem : ctyType)
| ctyMap (elem : ctyType)
| ctySet (elem : ctyType)
| ctyObject (attrs : list (string * ctyType))
| ctyTuple (elems : list ctyType)
| ctyDynamicPseudoType.

Definition IsObjectType (ty : ctyType) : bool :=
  match ty with ctyObject _ => true | _ => false end.

Definition IsMapType (ty : ctyType) : bool :=
  match ty with ctyMap _ => true | _ => false end.

(** [ty == cty.Bool] and the like compare against a primitive type. *)
Definition isPrimitive (prim ty : ctyType) : bool :=
  match prim, ty with
  | ctyBool, ctyBool | ctyNumber, ctyNumber | ctyString, ctyString => true
  | _, _ => false
  end.

(** Modelled from the spec: the declarations of [core.TableField],
    [core.TableJoin] and [core.Table] are not among the sources. Section 6 of
    the specification gives a field as [{ name, type, unique }], a join as
    [{ table, single, unique }] and a table as
    [{ name, fields[], tables[], joins[], single, unique }]; the sources use
    the members [Name], [Type], [Fields], [Tables], [Joins], [Table] and
    [Single] under those names. *)
Record TableField := mkField {
  FName : string;
  FType : ctyType;
  FUnique : bool
}.

(** Modelled from the spec: [core.TableJoin], a join as [{ table, single, unique }]. *)
Record TableJoin := mkJoin {
  JTable : string;
  JSingle : bool;
  JUnique : bool
}.

(** Modelled from the spec: [core.Table], a table as
    [{ name, fields[], tables[], joins[], single, unique }]. *)
Inductive Table := mkTable {
  Name : string;
  Fields : list TableField;
  Joins : list TableJoin;
  Tables : list Table;
  Single : bool;
  Unique : bool
}.

(** Every table of a description, nested ones included, parents first. *)
Fixpoint flatten (t : Table) : list Table :=
  t :: (fix go (ts : list Table) : list Table :=
          match ts with
          | [] => []
          | c :: cs => flatten c ++ go cs
          end) (Tables t).

Definition flattenAll (ts : list Table) : list Table := concat (flatten <$> ts).

(** The names a description declares. *)
Definition declared (ts : list Table) : gset string :=
  list_to_set (Name <$> flattenAll ts).

(** ** The schema graph ([store/schemagraph.go]) *)

Inductive RelType := OneToOne | OneToMany | BelongsTo.

Global Instance RelType_eq_dec : EqDecision RelType.
Proof. solve_decision. Defined.

(** A [*SchemaNode] is modelled by the key under which the node is stored in
    the [nodeRefMap]: [createFrom] stores every node under its [Table.Name],
    nothing else allocates nodes, and no name is ever changed, so that
    [n.Table.Name] is that key. The map is the store of the nodes: an edge or a
    root that names a node sees every later change of its edges. *)
Record SchemaEdge := mkEdge {
  Node : string;
  Rel : RelType
}.

Global Instance SchemaEdge_eq_dec : EqDecision SchemaEdge.
Proof. solve_decision. Defined.

Record SchemaNode := mkNode {
  NTable : Table;
  Edges : list SchemaEdge
}.

Record SchemaGraph := mkGraph {
  Nodes : list string;
  NodeIndex : gmap string SchemaNode
}.

Definition isScalar (e : SchemaEdge) : bool :=
  negb (bool_decide (Rel e = OneToMany)).

(** The edges of the node behind a pointer. *)
Definition edgesOf (nodes : gmap string SchemaNode) (n : string) : list SchemaEdge :=
  match nodes !! n with
  | Some nd => Edges nd
  | None => []
  end.

Definition appendEdge (e : SchemaEdge) (nd : SchemaNode) : SchemaNode :=
  {| NTable := NTable nd; Edges := Edges nd ++ [e] |}.

(** [n.addEdgeFromJoin(child, unique)]: the two appends happen one after the
    other on the shared nodes, also when [n] and [child] are one node. Both
    nodes are in the map when [connectFrom] calls this: the parent has been
    looked up or is a table, and [createFrom] has made a node for every table
    (lemma [createFrom_dom]). *)
Definition addEdgeFromJoin (n child : string) (unique : bool)
    (nodes : gmap string SchemaNode) : gmap string SchemaNode :=
  let edgeToChild := {| Node := child; Rel := if unique then OneToOne else OneToMany |} in
  let edgeToParent := {| Node := n; Rel := BelongsTo |} in
  alter (appendEdge edgeToParent) child (alter (appendEdge edgeToChild) n nodes).

(** [nodes.createFrom(tables)] *)
Fixpoint createFrom_table (t : Table) (nodes : gmap string SchemaNode)
    : gmap string SchemaNode :=
  (fix createFrom_list (ts : list Table) (nodes : gmap string SchemaNode) :=
     match ts with
     | [] => nodes
     | c :: cs => createFrom_list cs (createFrom_table c nodes)
     end) (Tables t) (<[Name t := {| NTable := t; Edges := [] |}]> nodes).

Definition createFrom (tables : list Table) (nodes : gmap string SchemaNode)
    : gmap string SchemaNode :=
  foldl (λ nodes t, createFrom_table t nodes) nodes tables.

(** The loop over [table.Joins] in [connectFrom]: it leaves the function at the
    first join whose table is not in the map. *)
Fixpoint connectJoins (tname : string) (joins : list TableJoin)
    (nodes : gmap string SchemaNode) : gmap string SchemaNode * option error :=
  match joins with
  | [] => (nodes, None)
  | join :: rest =>
      match nodes !! JTable join with
      | None =>
          (nodes, Some ("join refers to unknown table: " +:+ tname +:+ " --> " +:+ JTable join))
      | Some _ =>
          connectJoins tname rest (addEdgeFromJoin (JTable join) tname (JSingle join) nodes)
      end
  end.

(** One turn of the loop of [nodes.connectFrom(tables, parent)]. The recursive
    call [nodes.connectFrom(table.Tables, node)] is a statement of its own: the
    error it returns is dropped. [table.Tables = nil] assigns to the loop's
    copy of the table and changes nothing. *)
Fixpoint connectFrom_table (parent : option string) (table : Table)
    (nodes : gmap string SchemaNode) : gmap string SchemaNode * option error :=
  let node := Name table in
  match connectJoins node (Joins table) nodes with
  | (nodes, Some err) => (nodes, Some err)
  | (nodes, None) =>
      let nodes :=
        match parent with
        | Some p => addEdgeFromJoin p node (Single table) nodes
        | None => nodes
        end in
      let '(nodes, _) :=
        (fix connectFrom_list (ts : list Table) (nodes : gmap string SchemaNode) :=
           match ts with
           | [] => (nodes, None)
           | c :: cs =>
               match connectFrom_table (Some node) c nodes with
               | (nodes, Some err) => (nodes, Some err)
               | (nodes, None) => connectFrom_list cs nodes
               end
           end) (Tables table) nodes in
      (nodes, None)
  end.

Fixpoint connectFrom (tables : list Table) (parent : option string)
    (nodes : gmap string SchemaNode) : gmap string SchemaNode * option error :=
  match tables with
  | [] => (nodes, None)
  | table :: rest =>
      match connectFrom_table parent table nodes with
      | (nodes, Some err) => (nodes, Some err)
      | (nodes, None) => connectFrom rest parent nodes
      end
  end.

(** The root nodes: the top-level tables without joins, in their order. *)
Definition rootNodes (tables : list Table) : list string :=
  Name <$> filter (λ table, length (Joins table) = 0) tables.

(** [NewSchemaGraph(tables)]: the graph is returned with the error, too. *)
Definition NewSchemaGraph (tables : list Table) : SchemaGraph * option error :=
  let nodes := createFrom tables ∅ in
  let roots := rootNodes tables in
  match connectFrom tables None nodes with
  | (nodes, Some err) =>
      ({| Nodes := roots; NodeIndex := nodes |}, Some (Errorf "failed to create graph: " err))
  | (nodes, None) => ({| Nodes := roots; NodeIndex := nodes |}, None)
  end.

(** *** Traversal *)

Section Traverse.
(** The callback of [Traverse] is a closure: [St] is the state it captures.
    A call of it panics, or returns with an error or without one. *)
Context {St : Type}.
Variable fnVisit : string → St → result (St * option error).

(** How a visit ends when it does not panic: with the [visited] map and the
    state for the rest of the traversal, or with the error of the callback. *)
Inductive visitResult :=
| Visited (visited : gset string) (s : St)
| Failed (s : St) (err : error).

(** The loop of [visitSchemaNode] over [node.Edges], [visit] being the
    recursive call. *)
Fixpoint edgeLoop (visit : string → gset string → St → option (result visitResult))
    (edges : list SchemaEdge) (visited : gset string) (s : St)
    : option (result visitResult) :=
  match edges with
  | [] => Some (Ok (Visited visited s))
  | e :: rest =>
      if decide (Node e ∈ visited) then edgeLoop visit rest visited s
      else
        match visit (Node e) visited s with
        | Some (Ok (Visited visited s)) => edgeLoop visit rest visited s
        | stop => stop
        end
  end.

(** [visitSchemaNode(node, visited, fnVisit)]. The recursion is on [fuel]: a
    call that finds none left has no result. *)
Fixpoint visitSchemaNode (fuel : nat) (nodes : gmap string SchemaNode)
    (node : string) (visited : gset string) (s : St)
    : option (result visitResult) :=
  match fuel with
  | 0 => None
  | S fuel =>
      match fnVisit node s with
      | Panic msg => Some (Panic msg)
      | Ok (s, Some err) => Some (Ok (Failed s err))
      | Ok (s, None) =>
          edgeLoop (visitSchemaNode fuel nodes) (edgesOf nodes node) ({[node]} ∪ visited) s
      end
  end.

(** The loop of [Traverse] over [g.Nodes]. *)
Fixpoint traverseLoop (fuel : nat) (nodes : gmap string SchemaNode)
    (roots : list string) (visited : gset string) (s : St)
    : option (result (St * option error)) :=
  match roots with
  | [] => Some (Ok (s, None))
  | n :: rest =>
      if decide (n ∈ visited) then traverseLoop fuel nodes rest visited s
      else
        match visitSchemaNode fuel nodes n visited s with
        | None => None
        | Some (Panic msg) => Some (Panic msg)
        | Some (Ok (Failed s err)) =>
            Some (Ok (s, Some (Errorf "failed to traverse schema graph: " err)))
        | Some (Ok (Visited visited s)) => traverseLoop fuel nodes rest visited s
        end
  end.

(** [g.Traverse(fnVisit)], with fuel for one nested call per node. *)
Definition Traverse (g : SchemaGraph) (s : St) : option (result (St * option error)) :=
  traverseLoop (S (size (NodeIndex g))) (NodeIndex g) (Nodes g) ∅ s.

(** The callback applied to the nodes of a list, one after the other, up to
    the first call that panics or returns an error. *)
Fixpoint runVisits (ns : list string) (s : St) : result (St * option error) :=
  match ns with
  | [] => Ok (s, None)
  | n :: rest =>
      match fnVisit n s with
      | Ok (s, None) => runVisits rest s
      | stop => stop
      end
  end.

(** What [Traverse] makes of the outcome of the visits. *)
Definition traverseResult (r : result (St * option error)) : result (St * option error) :=
  match r with
  | Ok (s, Some err) => Ok (s, Some (Errorf "failed to traverse schema graph: " err))
  | other => other
  end.

(** What a visit makes of the outcome of the calls of the callback, [visited]
    being the nodes seen if all the calls return nil. *)
Definition visitOutcome (visited : gset string) (r : result (St * option error))
    : result visitResult :=
  match r with
  | Ok (s, None) => Ok (Visited visited s)
  | Ok (s, Some err) => Ok (Failed s err)
  | Panic msg => Panic msg
  end.
End Traverse.

(** The callback that only records the nodes it is applied to. *)
Definition recordVisit (n : string) (log : list string) : result (list string * option error) :=
  Ok (log ++ [n], None).

(** *** Depth-first search as the specification words it

    "Pre-order DFS over forward edges, visiting each node at most once; order
    among sibling edges = declaration order": a search with an explicit stack
    of the nodes still to look at. [follow] tells which edges the search
    follows. *)

Definition isForward (r : RelType) : bool :=
  match r with
  | OneToMany | OneToOne => true
  | BelongsTo => false
  end.

Definition anyEdge (r : RelType) : bool := true.

Definition targets (follow : RelType → bool) (nodes : gmap string SchemaNode)
    (n : string) : list string :=
  Node <$> filter (λ e, follow (Rel e) = true) (edgesOf nodes n).

Fixpoint dfsStack (follow : RelType → bool) (nodes : gmap string SchemaNode)
    (fuel : nat) (stack : list string) (seen : gset string) : option (list string) :=
  match fuel with
  | 0 => None
  | S fuel =>
      match stack with
      | [] => Some []
      | n :: stack =>
          if decide (n ∈ seen) then dfsStack follow nodes fuel stack seen
          else cons n <$> dfsStack follow nodes fuel (targets follow nodes n ++ stack) ({[n]} ∪ seen)
      end
  end.

(** The number of edges of a graph. *)
Definition edgeCount (nodes : gmap string SchemaNode) : nat :=
  sum_list ((λ kv, length (Edges kv.2)) <$> map_to_list nodes).

(** Every node enters [seen] once and every edge puts one entry on the stack. *)
Definition dfsFuel (g : SchemaGraph) : nat :=
  S (size (NodeIndex g) * S (edgeCount (NodeIndex g)) + length (Nodes g)).

Definition preorderDFS (follow : RelType → bool) (g : SchemaGraph) : option (list string) :=
  dfsStack follow (NodeIndex g) (dfsFuel g) (Nodes g) ∅.

(** The search in big steps: from the nodes [seen], looking at the nodes of a
    list one after the other visits the nodes [order], in this order, and ends
    with the nodes [seen'] seen. *)
Inductive dfsRun (follow : RelType → bool) (nodes : gmap string SchemaNode)
    : gset string → list string → list string → gset string → Prop :=
| dfsRun_nil seen : dfsRun follow nodes seen [] [] seen
| dfsRun_skip seen n ns order seen' :
    n ∈ seen →
    dfsRun follow nodes seen ns order seen' →
    dfsRun follow nodes seen (n :: ns) order seen'
| dfsRun_visit seen n ns below seen1 order seen' :
    n ∉ seen →
    dfsRun follow nodes ({[n]} ∪ seen) (targets follow nodes n) below seen1 →
    dfsRun follow nodes seen1 ns order seen' →
    dfsRun follow nodes seen (n :: ns) (n :: below ++ order) seen'.

(** ** The GraphQL schema ([store/graphql.go]) *)

(** The scalar types of graphql-go that the builder uses, and [mapScalar]. *)
Inductive Scalar := gqlBoolean | gqlInt | gqlString | mapScalar.

(** A GraphQL type as the builder composes it. A [*graphql.Object] is a pointer
    into the [fields] map of the builder, modelled by the key of the entry that
    holds the object ([None] is the nil pointer): [AddFieldConfig] changes an
    object after other types already point to it. *)
Inductive gqlType :=
| TScalar (s : Scalar)
| TEnum (name : string)
| TObject (ref : option string)
| TList (ofType : gqlType)
| TInputObject (name : string) (members : gmap string gqlType).

(** [enumOrderBy] *)
Definition enumOrderBy : gqlType := TEnum "Order".


(** [graphQLFieldType(f)] *)
Definition graphQLFieldType (f : TableField) : result Scalar :=
  let ty := FType f in
  if isPrimitive ctyBool ty then Ok gqlBoolean
  else if isPrimitive ctyNumber ty then Ok gqlInt
  else if isPrimitive ctyString ty then Ok gqlString
  else if IsObjectType ty then Ok mapScalar
  else if IsMapType ty then Ok mapScalar
  else Panic "Unsupported GraphQL conversion from cty.Type".

Definition filterID := "filter".
Definition filterOnID := "filter_on".
Definition firstID := "first".
Definition lastID := "last".
Definition orderByID := "order_by".
Definition orderByType := "_order".

Definition filterGreaterThan := "_gt".
Definition filterLessThan := "_lt".
Definition filterGreaterThanOrEqualTo := "_gte".
Definition filterLessThanOrEqualTo := "_lte".
Definition filterIn := "_in".
Definition filterNotIn := "_not_in".

Definition scalarFilters : list string :=
  [filterGreaterThan; filterLessThan; filterGreaterThanOrEqualTo; filterLessThanOrEqualTo].

Definition listFilters : list string := [filterIn; filterNotIn].

(** Modelled from the spec: the constant [tableIDField] is not among the
    sources; the specification names the implicit identifier [_id]. *)
Definition tableIDField := "_id".

Section GraphQL.
(** [graphql.FieldResolveFn], the type of the resolver functions. *)
Context {FieldResolveFn : Type}.

(** The order in which a Go [range] goes through a map is not specified:
    [rangeOrder] is the order of one run, some enumeration of the entries. *)
Variable rangeOrder : ∀ A : Type, gmap string A → list (string * A).

(** [graphql.Field], with the members the builder sets; an argument
    ([graphql.ArgumentConfig]) and a member of an input object
    ([graphql.InputObjectFieldConfig]) are given by their [Type]. *)
Record Field := mkGqlField {
  FieldType : gqlType;
  FieldArgs : gmap string gqlType;
  Resolve : option FieldResolveFn
}.

(** [graphql.Object] *)
Record Object := mkObject {
  ObjName : string;
  ObjFields : gmap string Field
}.

(** [gqlField]; the zero value has a nil [Type] and nil [Args]. *)
Record gqlField := mkGqlEntry {
  Type_ : option Object;
  Args : gmap string gqlType
}.

(** [graphQLOrderType(typeName, args)] *)
Definition graphQLOrderType (typeName : string) (args : gmap string Field) : gqlType :=
  let fields :=
    foldl (λ (fields : gmap string gqlType) (na : string * Field), <[na.1 := enumOrderBy]> fields)
      ∅ (rangeOrder _ args) in
  TInputObject (typeName +:+ orderByType) fields.

(** [graphQLFilterType(typeName, args)] *)
Definition graphQLFilterType (typeName : string) (args : gmap string gqlType) : gqlType :=
  let fields :=
    foldl (λ (fields : gmap string gqlType) (na : string * gqlType),
             let fields :=
               foldl (λ fields f, <[na.1 +:+ f := na.2]> fields) fields scalarFilters in
             foldl (λ fields f, <[na.1 +:+ f := TList na.2]> fields) fields listFilters)
      ∅ (rangeOrder _ args) in
  TInputObject (typeName +:+ "_filter") fields.

(** The loop of [addGraphFields] over [t.Fields], on [typeFields] and
    [gqlField.Args]. *)
Fixpoint addTableFields (fs : list TableField)
    (acc : gmap string Field * gmap string gqlType)
    : result (gmap string Field * gmap string gqlType) :=
  match fs with
  | [] => Ok acc
  | f :: rest =>
      ft ← graphQLFieldType f;
      addTableFields rest
        (<[FName f := mkGqlField (TScalar ft) ∅ None]> acc.1,
         <[FName f := TScalar ft]> acc.2)
  end.

(** [addGraphFields(t, fields)] *)
Definition addGraphFields (t : Table) (fields : gmap string gqlField)
    : result (gmap string gqlField) :=
  acc ← addTableFields (Fields t) (∅, ∅);
  let typeFields := <[tableIDField := mkGqlField (TScalar gqlString) ∅ None]> acc.1 in
  let args := <[tableIDField := TScalar gqlString]> acc.2 in
  let args := <[filterID := graphQLFilterType (Name t) args]> args in
  let args := <[orderByID := graphQLOrderType (Name t) typeFields]> args in
  let args := <[filterOnID := TScalar gqlBoolean]> args in
  let args := <[firstID := TScalar gqlInt]> args in
  let args := <[lastID := TScalar gqlInt]> args in
  let type := {| ObjName := Name t; ObjFields := typeFields |} in
  Ok (<[Name t := {| Type_ := Some type; Args := args |}]> fields).

(** [gt.AddFieldConfig(fieldName, fieldConfig)] of graphql-go, which leaves
    the object alone when the name is empty. *)
Definition AddFieldConfig (fieldName : string) (fieldConfig : Field) (gt : Object) : Object :=
  if decide (fieldName = "") then gt
  else {| ObjName := ObjName gt; ObjFields := <[fieldName := fieldConfig]> (ObjFields gt) |}.

(** The type behind [dstField.Type]: the pointer to the object of the entry,
    nil if there is no entry. *)
Definition objectRef (fields : gmap string gqlField) (name : string) : gqlType :=
  match fields !! name with
  | Some {| Type_ := Some _ |} => TObject (Some name)
  | _ => TObject None
  end.

Definition argsOf (fields : gmap string gqlField) (name : string) : gmap string gqlType :=
  match fields !! name with
  | Some entry => Args entry
  | None => ∅
  end.

(** The [graphql.Field] that [addGraphEdges] makes for an edge. *)
Definition edgeField (fields : gmap string gqlField) (edge : SchemaEdge) : Field :=
  let dstFieldType := objectRef fields (Node edge) in
  let dstFieldType := if negb (isScalar edge) then TList dstFieldType else dstFieldType in
  {| FieldType := dstFieldType; FieldArgs := argsOf fields (Node edge); Resolve := None |}.

(** The loop of [addGraphEdges] over [n.Edges]. [fields] is the map as it is
    when the edge is looked at: the object of [n] in it changes with every
    turn. On a nil [field.Type], [AddFieldConfig] panics once it is past the
    test of the name. *)
Fixpoint addEdgeFields (n : string) (edges : list SchemaEdge)
    (fields : gmap string gqlField) : result (gmap string gqlField) :=
  match edges with
  | [] => Ok fields
  | edge :: rest =>
      match fields !! n with
      | Some {| Type_ := Some type; Args := args |} =>
          let type := AddFieldConfig (Node edge) (edgeField fields edge) type in
          addEdgeFields n rest (<[n := {| Type_ := Some type; Args := args |}]> fields)
      | _ =>
          if decide (Node edge = "") then addEdgeFields n rest fields
          else Panic "invalid memory address or nil pointer dereference"
      end
  end.

(** [addGraphEdges(n, fields)] *)
Definition addGraphEdges (nodes : gmap string SchemaNode) (n : string)
    (fields : gmap string gqlField) : result (gmap string gqlField) :=
  addEdgeFields n (edgesOf nodes n) fields.

(** [graphql.Schema], by its query type and the objects it refers to; the
    zero value [graphql.Schema{}] has neither. *)
Record Schema := mkSchema {
  queryType : option Object;
  typeMap : gmap string gqlField
}.

Definition zeroSchema : Schema := {| queryType := None; typeMap := ∅ |}.

(** [graphql.NewSchema] of graphql-go, given the query object of the
    configuration and the objects its types point to. *)
Variable NewSchema : gmap string gqlField → Object → Schema * option error.

(** The loop of [newGraphQLSchema] that fills [queryFields]. [field.Type.Name()]
    panics on a nil [Type]. *)
Fixpoint addQueryFields (resolveFn : FieldResolveFn) (entries : list (string * gqlField))
    (queryFields : gmap string Field) : result (gmap string Field) :=
  match entries with
  | [] => Ok queryFields
  | (key, field) :: rest =>
      match Type_ field with
      | Some type =>
          addQueryFields resolveFn rest
            (<[ObjName type :=
                 {| FieldType := TList (TObject (Some key));
                    FieldArgs := Args field;
                    Resolve := Some resolveFn |}]> queryFields)
      | None => Panic "invalid memory address or nil pointer dereference"
      end
  end.

(** The two callbacks that [newGraphQLSchema] hands to [Traverse]; both
    return nil. *)
Definition visitFields (graph : SchemaGraph) (node : string)
    (fields : gmap string gqlField) : result (gmap string gqlField * option error) :=
  match NodeIndex graph !! node with
  | Some nd => fields ← addGraphFields (NTable nd) fields; Ok (fields, None)
  | None => Panic "invalid memory address or nil pointer dereference"
  end.

Definition visitEdges (graph : SchemaGraph) (node : string)
    (fields : gmap string gqlField) : result (gmap string gqlField * option error) :=
  fields ← addGraphEdges (NodeIndex graph) node fields; Ok (fields, None).

(** [newGraphQLSchema(graph, resolveFn)]; what the two traversals return is
    not looked at. *)
Definition newGraphQLSchema (graph : SchemaGraph) (resolveFn : FieldResolveFn)
    : option (result (Schema * option error)) :=
  if decide (length (Nodes graph) = 0) then Some (Ok (zeroSchema, None))
  else
    match Traverse (visitFields graph) graph ∅ with
    | None => None
    | Some (Panic msg) => Some (Panic msg)
    | Some (Ok (fields, _)) =>
        match Traverse (visitEdges graph) graph fields with
        | None => None
        | Some (Panic msg) => Some (Panic msg)
        | Some (Ok (fields, _)) =>
            Some (queryFields ← addQueryFields resolveFn (rangeOrder _ fields) ∅;
                  Ok (NewSchema fields {| ObjName := "query"; ObjFields := queryFields |}))
        end
    end.
End GraphQL.

Arguments Field : clear implicits.
Arguments Object : clear implicits.
Arguments gqlField : clear implicits.
Arguments Schema : clear implicits.

(** ** The provider ([store/cockroachdb.go]) *)

Module Cockroachdb.
Section Provider.
(** What the database holds, and the description [*bubblySchema] that
    [psqlApplySchema] turns into statements; neither is among the sources. *)
Context {Data bubblySchema : Type}.

(** A connection: the committed data of the database behind it, and how many
    transactions have been begun on it. *)
Record conn := mkConn {
  committed : Data;
  begun : nat
}.

(** [crdbpgx.ExecuteTx(ctx, conn, opts, fn)] of cockroach-go begins one
    transaction, runs [fn] in it, and commits what [fn] did if [fn] returns
    nil; otherwise it rolls the transaction back and returns the error. *)
Definition ExecuteTx (fn : Data → Data * option error) (c : conn) : conn * option error :=
  match fn (committed c) with
  | (data, None) => ({| committed := data; begun := S (begun c) |}, None)
  | (_, Some err) => ({| committed := committed c; begun := S (begun c) |}, Some err)
  end.

(** [psqlApplySchema(tx, schema)], the statements of a schema apply. *)
Variable psqlApplySchema : bubblySchema → Data → Data * option error.

(** [c.Apply(schema)] *)
Definition Apply (schema : bubblySchema) (c : conn) : conn * option error :=
  match ExecuteTx (λ tx, psqlApplySchema schema tx) c with
  | (c, Some err) => (c, Some (Errorf "failed to apply tables: " err))
  | (c, None) => (c, None)
  end.
End Provider.

Arguments conn : clear implicits.
End Cockroachdb.

(** ** The store facade ([Store], in the sources of the worker component) *)

Module Store.
Section Facade.
(** The provider behind the store and [graphql.Schema]. *)
Context {provider Schema : Type}.

(** The name of the implicit identifier column; its declaration is not among
    the sources. *)
Variable idFieldName : string.

(** [s.p.Create(tables)] *)
Variable Create_provider : list Table → provider → result (provider * option error).

(** [newGraphQLSchema(tables, s.p)], the builder as this caller has it. *)
Variable newGraphQLSchema : list Table → provider → result (Schema * option error).

(** [Store]; the lock [mu] orders the writes of [schema] among goroutines and
    has no part in what one call computes. *)
Record Store := mkStore {
  p : provider;
  schema : Schema
}.

Definition hasField (name : string) (fs : list TableField) : bool :=
  bool_decide (Exists (λ f, FName f = name) fs).

(** [addImplicitIDs(parent, tables)] *)
Fixpoint addImplicitIDs_table (parent : option string) (t : Table) : Table :=
  let fields := Fields t ++ [{| FName := idFieldName; FType := ctyNumber; FUnique := false |}] in
  let fields :=
    match parent with
    | Some parentName =>
        let parentIDName := parentName +:+ "_id" in
        if hasField parentIDName fields then fields
        else fields ++ [{| FName := parentIDName; FType := ctyNumber; FUnique := false |}]
    | None => fields
    end in
  {| Name := Name t;
     Fields := fields;
     Joins := Joins t;
     Tables := (fix addImplicitIDs_list (ts : list Table) : list Table :=
                  match ts with
                  | [] => []
                  | c :: cs => addImplicitIDs_table (Some (Name t)) c :: addImplicitIDs_list cs
                  end) (Tables t);
     Single := Single t;
     Unique := Unique t |}.

Definition addImplicitIDs (parent : option string) (tables : list Table) : list Table :=
  addImplicitIDs_table parent <$> tables.

(** [s.Create(tables)] *)
Definition Create (tables : list Table) (s : Store) : result (Store * option error) :=
  let tables := addImplicitIDs None tables in
  r ← Create_provider tables (p s);
  match r with
  | (p', Some err) =>
      Ok ({| p := p'; schema := schema s |}, Some (Errorf "failed to create in provider: " err))
  | (p', None) =>
      r ← newGraphQLSchema tables p';
      match r with
      | (_, Some err) =>
          Ok ({| p := p'; schema := schema s |}, Some (Errorf "falied to build GraphQL schema: " err))
      | (schema', None) => Ok ({| p := p'; schema := schema' |}, None)
      end
  end.
End Facade.

Arguments Store : clear implicits.
End Store.

(** ** The notions the properties are stated with *)

(** The joins of a description, as the specification has them: a directed
    reference of a child to a parent with its [single] flag, written
    [(parent, child, single)]. The explicit joins of a table come first, then
    the join that nesting implies, then the joins of the nested tables. *)
Fixpoint tableJoins (parent : option string) (t : Table) : list (string * string * bool) :=
  ((λ j, (JTable j, Name t, JSingle j)) <$> Joins t)
  ++ match parent with
     | Some p => [(p, Name t, Single t)]
     | None => []
     end
  ++ (fix go (ts : list Table) : list (string * string * bool) :=
        match ts with
        | [] => []
        | c :: cs => tableJoins (Some (Name t)) c ++ go cs
        end) (Tables t).

Definition schemaJoins (parent : option string) (tables : list Table)
    : list (string * string * bool) :=
  concat (tableJoins parent <$> tables).

(** Every explicit join of every table references a declared table. *)
Definition joinsDeclared (tables : list Table) : Prop :=
  Forall (λ t, Forall (λ j, JTable j ∈ declared tables) (Joins t)) (flattenAll tables).

(** The belongs-to projection of a description, and what a cycle in it is. *)
Definition belongsTo (tables : list Table) (child parent : string) : Prop :=
  ∃ single, (parent, child, single) ∈ schemaJoins None tables.

Definition cyclic (tables : list Table) : Prop :=
  ∃ n, tc (belongsTo tables) n n.

(** How many joins of a description relate [child] to [parent]. *)
Definition joinCount (tables : list Table) (parent child : string) : nat :=
  length (filter (λ ev, ev.1.1 = parent ∧ ev.1.2 = child) (schemaJoins None tables)).

(** The relationship of the edge from the parent to the child. *)
Definition relOf (single : bool) : RelType := if single then OneToOne else OneToMany.

(** The edges of a graph from [a] to [b], all of them or those of some
    relationships. *)
Definition edgesBetween (nodes : gmap string SchemaNode) (a b : string) : list SchemaEdge :=
  filter (λ e, Node e = b) (edgesOf nodes a).

Definition belongsToEdges (nodes : gmap string SchemaNode) (a b : string) : list SchemaEdge :=
  filter (λ e, Rel e = BelongsTo) (edgesBetween nodes a b).

Definition forwardEdges (nodes : gmap string SchemaNode) (a b : string) : list SchemaEdge :=
  filter (λ e, Rel e ≠ BelongsTo) (edgesBetween nodes a b).

(** The edges that a join gives to the node [x]. *)
Definition joinEdges (x : string) (ev : string * string * bool) : list SchemaEdge :=
  (if decide (x = ev.1.1) then [{| Node := ev.1.2; Rel := relOf ev.2 |}] else [])
  ++ (if decide (x = ev.1.2) then [{| Node := ev.1.1; Rel := BelongsTo |}] else []).

(** The joins of a list, added to a graph one after the other. *)
Definition addJoins (evs : list (string * string * bool)) (nodes : gmap string SchemaNode)
    : gmap string SchemaNode :=
  foldl (λ nodes ev, addEdgeFromJoin ev.1.1 ev.1.2 ev.2 nodes) nodes evs.

(** Induction on a table with its nested tables. *)
Section TableInduction.
Variable P : Table → Prop.
Hypothesis step : ∀ t, Forall P (Tables t) → P t.

Fixpoint Table_nested_ind (t : Table) : P t :=
  step t
    ((fix all (ts : list Table) : Forall P ts :=
        match ts with
        | [] => Forall_nil_2 P
        | c :: cs => Forall_cons_2 P c cs (Table_nested_ind c) (all cs)
        end) (Tables t)).
End TableInduction.

(** A join has both its tables among the nodes [D]. *)
Definition endsIn (D : gset string) (ev : string * string * bool) : Prop :=
  ev.1.1 ∈ D ∧ ev.1.2 ∈ D.

(** A join relates the parent [a] and the child [b]. *)
Definition relates (a b : string) (ev : string * string * bool) : Prop :=
  ev.1.1 = a ∧ ev.1.2 = b.

Global Instance relates_dec a b ev : Decision (relates a b ev).
Proof. unfold relates. apply _. Defined.

(** Every explicit join of a table references a node of [D]. *)
Definition joinsKnown (D : gset string) (t : Table) : Prop :=
  Forall (λ j, JTable j ∈ D) (Joins t).

Definition names (tables : list Table) : list string := Name <$> flattenAll tables.

(** What a run of [connectFrom] or of a part of it comes to: the joins it got
    to, a part of the [joins] in front of it, added in their order; an error
    unless [okTop]; and all the joins if [okAll]. *)
Definition connects (res : gmap string SchemaNode * option error)
    (nodes : gmap string SchemaNode) (joins : list (string * string * bool))
    (okTop okAll : Prop) : Prop :=
  ∃ evs, evs `sublist_of` joins
         ∧ res.1 = addJoins evs nodes
         ∧ Forall (endsIn (dom nodes)) evs
         ∧ (res.2 = None ↔ okTop)
         ∧ (okAll → evs = joins).

Definition connectsAll (parent : option string) (tables : list Table) : Prop :=
  ∀ nodes : gmap string SchemaNode,
    (∀ n, n ∈ names tables → n ∈ dom nodes) →
    (∀ p, parent = Some p → p ∈ dom nodes) →
    connects (connectFrom tables parent nodes) nodes (schemaJoins parent tables)
      (Forall (joinsKnown (dom nodes)) tables)
      (Forall (joinsKnown (dom nodes)) (flattenAll tables)).

Definition connectsTable (t : Table) : Prop :=
  ∀ parent (nodes : gmap string SchemaNode),
    (∀ n, n ∈ names [t] → n ∈ dom nodes) →
    (∀ p, parent = Some p → p ∈ dom nodes) →
    connects (connectFrom_table parent t nodes) nodes (tableJoins parent t)
      (joinsKnown (dom nodes) t)
      (Forall (joinsKnown (dom nodes)) (flatten t)).

(** What [createFrom] makes of a map: nodes without edges for the names [ns],
    each under the name of its table, the other nodes as they were. *)
Definition created (nodes0 nodes : gmap string SchemaNode) (ns : list string) : Prop :=
  dom nodes = list_to_set ns ∪ dom nodes0
  ∧ ∀ k nd, nodes !! k = Some nd →
      nodes0 !! k = Some nd ∨ (k ∈ ns ∧ Edges nd = [] ∧ Name (NTable nd) = k).

(** The joins of a description have the explicit joins of each of its tables
    and the join of each nested table to the table around it. *)
Definition joinsOfTables (parent : option string) (tables : list Table) : Prop :=
  (∀ t j, t ∈ flattenAll tables → j ∈ Joins t →
     (JTable j, Name t, JSingle j) ∈ schemaJoins parent tables)
  ∧ (∀ t c, t ∈ flattenAll tables → c ∈ Tables t →
       (Name t, Name c, Single c) ∈ schemaJoins parent tables).

Definition joinsOfTable (parent : option string) (t : Table) : Prop :=
  (∀ t' j, t' ∈ flatten t → j ∈ Joins t' →
     (JTable j, Name t', JSingle j) ∈ tableJoins parent t)
  ∧ (∀ t' c, t' ∈ flatten t → c ∈ Tables t' →
       (Name t', Name c, Single c) ∈ tableJoins parent t).

(** ** Descriptions for the examples *)

Definition table (name : string) (joins : list TableJoin) (tables : list Table) : Table :=
  {| Name := name; Fields := []; Joins := joins; Tables := tables;
     Single := false; Unique := false |}.

Definition joinTo (name : string) : TableJoin :=
  {| JTable := name; JSingle := false; JUnique := false |}.

(** Two tables that join each other. *)
Definition cyclicPair : list Table :=
  [table "A" [joinTo "B"] []; table "B" [joinTo "A"] []].

(** A table nested in the table it also joins. *)
Definition nestedAndJoined : list Table :=
  [table "A" [] [table "B" [joinTo "A"] []]].


(** A nested table that joins a table nobody declares. *)
Definition unknownBelow : list Table :=
  [table "zoo" [] [table "shops" [joinTo "mall"] []]].

(** A table with two parents, one of which has another child. *)
Definition sharedChild : list Table :=
  [table "A" [] []; table "C" [] []; table "B" [joinTo "A"; joinTo "C"] [];
   table "E" [joinTo "A"] []].

(** ** Notions for the properties of the GraphQL schema *)

(** The types of a field that the builder has a GraphQL scalar for. *)
Inductive supported : ctyType → Prop :=
| supported_Bool : supported ctyBool
| supported_Number : supported ctyNumber
| supported_String : supported ctyString
| supported_Object attrs : supported (ctyObject attrs)
| supported_Map elem : supported (ctyMap elem).

(** The scalar of each of them: Boolean, Int, String, and Map for objects and
    maps. *)
Definition scalarFor (ty : ctyType) : Scalar :=
  match ty with
  | ctyBool => gqlBoolean
  | ctyNumber => gqlInt
  | ctyString => gqlString
  | _ => mapScalar
  end.

(** A table with a field that is a list of strings. *)
Definition tableWithList : Table :=
  {| Name := "zoo";
     Fields := [{| FName := "Name"; FType := ctyString; FUnique := true |};
                {| FName := "Tags"; FType := ctyList ctyString; FUnique := false |}];
     Joins := []; Tables := []; Single := false; Unique := false |}.


(** The zoo of the specification's first scenario. *)
Definition zoo : Table :=
  {| Name := "zoo";
     Fields := [{| FName := "Name"; FType := ctyString; FUnique := true |};
                {| FName := "State"; FType := ctyString; FUnique := false |}];
     Joins := []; Tables := []; Single := false; Unique := false |}.

(** An order of [range]: the one in which [map_to_list] lists the entries. *)
Definition listOrder (A : Type) (m : gmap string A) : list (string * A) := map_to_list m.


(** The field of an object type for a declared field with the scalar [sc]. *)
Definition scalarField {FieldResolveFn : Type} (sc : Scalar) : Field FieldResolveFn :=
  {| FieldType := TScalar sc; FieldArgs := ∅; Resolve := None |}.



(** The members that the filters give to the input object for the argument
    [a] of type [aty]. *)
Definition filterMember (a : string) (aty : gqlType) (m : string) (ty : gqlType) : Prop :=
  (∃ f, f ∈ scalarFilters ∧ m = a +:+ f ∧ ty = aty)
  ∨ (∃ f, f ∈ listFilters ∧ m = a +:+ f ∧ ty = TList aty).


Definition insertEntry {A : Type} (m : gmap string A) (kv : string * A) : gmap string A :=
  <[kv.1 := kv.2]> m.

(** A zoo with its shops nested in it, and the fields of the two tables as
    [addGraphFields] makes them. *)
Definition shops : Table :=
  {| Name := "shops";
     Fields := [{| FName := "Open"; FType := ctyBool; FUnique := false |}];
     Joins := []; Tables := []; Single := false; Unique := false |}.

Definition zooAroundShops : Table :=
  {| Name := "zoo";
     Fields := [{| FName := "Name"; FType := ctyString; FUnique := true |}];
     Joins := []; Tables := [shops]; Single := false; Unique := false |}.

Definition zooWithShops : list Table := [zooAroundShops].


(** A provider whose database is a number and that fails on an empty
    description, and the builder that fails on an empty description, too. *)
Definition countingProvider (tables : list Table) (db : nat) : result (nat * option error) :=
  match tables with
  | [] => Ok (db, Some "no tables")
  | _ => Ok (db + length tables, None)
  end.

Definition namesBuilder (tables : list Table) (db : nat) : result (list string * option error) :=
  match tables with
  | [_] => Ok ([], Some "nothing to query")
  | _ => Ok (names tables, None)
  end.

(** * More of the code *)

(** ** More of the schema graph ([store/schemagraph.go]) *)

(** The loop of [n.Edge(node)]: the first edge to the node of the name. *)
Fixpoint firstEdgeTo (node : string) (edges : list SchemaEdge) : option SchemaEdge :=
  match edges with
  | [] => None
  | edge :: rest =>
      if decide (Node edge = node) then Some edge else firstEdgeTo node rest
  end.

(** [n.Edge(node)] *)
Definition Edge (nodes : gmap string SchemaNode) (n : string) (node : string)
    : option SchemaEdge * option error :=
  match firstEdgeTo node (edgesOf nodes n) with
  | Some edge => (Some edge, None)
  | None => (None, Some ("edge does not exist between nodes " +:+ n +:+ " --> " +:+ node))
  end.

(** [newSchemaGraphFromMap(tables)]: the tables in the order in which [range]
    goes through the map. *)
Definition newSchemaGraphFromMap (rangeOrder : ∀ A : Type, gmap string A → list (string * A))
    (tables : gmap string Table) : SchemaGraph * option error :=
  NewSchemaGraph ((rangeOrder _ tables).*2).

(** A node has an edge to a node. *)
Definition edgeTo (nodes : gmap string SchemaNode) (x y : string) : Prop :=
  ∃ e, e ∈ edgesOf nodes x ∧ Node e = y.

(** A node is reached from a root of the graph along edges. *)
Definition reachable (g : SchemaGraph) (x : string) : Prop :=
  ∃ root, root ∈ Nodes g ∧ rtc (edgeTo (NodeIndex g)) root x.

(** A table of a description is at the top level or nested in a table of the
    description. *)
Definition placed (tables : list Table) (t : Table) : Prop :=
  t ∈ tables ∨ ∃ s, s ∈ flattenAll tables ∧ t ∈ Tables s.

(** Where a join of [schemaJoins] comes from: an explicit join of a table, a
    table nested in a table, or a table of the list below [parent]. *)
Definition fromTables (parent : option string) (tables : list Table)
    (ev : string * string * bool) : Prop :=
  (∃ t j, t ∈ flattenAll tables ∧ j ∈ Joins t ∧ ev = (JTable j, Name t, JSingle j))
  ∨ (∃ s c, s ∈ flattenAll tables ∧ c ∈ Tables s ∧ ev = (Name s, Name c, Single c))
  ∨ (∃ p t, parent = Some p ∧ t ∈ tables ∧ ev = (p, Name t, Single t)).

(** The tables below the tables of a list. *)
Definition below (tables : list Table) : list Table :=
  concat ((λ t, flattenAll (Tables t)) <$> tables).

(** A node without an edge to a table it belongs to. *)
Definition noParent (nodes : gmap string SchemaNode) (x : string) : Prop :=
  ∀ e, e ∈ edgesOf nodes x → Rel e ≠ BelongsTo.

(** Top-level tables, the second of which joins an undeclared table after a
    declared one, and the third an undeclared one, too. *)
Definition unknownTop : list Table :=
  [table "A" [] []; table "B" [joinTo "A"; joinTo "Y"; joinTo "Z"] []; table "C" [joinTo "X"] []].

(** Another order of [range]: the reverse of the one of [map_to_list]. *)
Definition reverseOrder (A : Type) (m : gmap string A) : list (string * A) :=
  reverse (map_to_list m).

(** The tables of a list as the provider keeps them: by name. *)
Definition tablesByName (tables : list Table) : gmap string Table :=
  list_to_map ((λ t, (Name t, t)) <$> tables).

(** ** More notions for the GraphQL schema *)



(** What the second traversal leaves of an entry as it is: the arguments, and
    the name of the object. *)
Definition entryShape {FieldResolveFn : Type} (e : gqlField FieldResolveFn)
    : gmap string gqlType * option string :=
  (Args e, ObjName <$> Type_ e).

(** The field of the query object for an entry with an object. *)
Definition queryField {FieldResolveFn : Type} (resolveFn : FieldResolveFn)
    (kf : string * gqlField FieldResolveFn) : string * Field FieldResolveFn :=
  (kf.1, {| FieldType := TList (TObject (Some kf.1));
            FieldArgs := Args kf.2;
            Resolve := Some resolveFn |}).


(** ** More of the store facade *)

(** What [addImplicitIDs] makes of a table, its nested tables apart: the table
    with the identifier column after its fields, and at most one column more,
    a number as well. *)
Definition withImplicitIDs (idFieldName : string) (t t' : Table) : Prop :=
  Name t' = Name t ∧ Joins t' = Joins t ∧ Single t' = Single t ∧ Unique t' = Unique t
  ∧ length (Tables t') = length (Tables t)
  ∧ ∃ extra,
      Fields t' = Fields t ++ {| FName := idFieldName; FType := ctyNumber; FUnique := false |} :: extra
      ∧ length extra ≤ 1
      ∧ Forall (λ f, FType f = ctyNumber) extra.

(** A zoo that declares the column [zoo_id] of its shops itself, as a string. *)
Definition zooWithShopColumn : list Table :=
  [{| Name := "zoo"; Fields := []; Joins := [];
      Tables := [{| Name := "shops";
                    Fields := [{| FName := "zoo_id"; FType := ctyString; FUnique := false |}];
                    Joins := []; Tables := [table "tills" [] []];
                    Single := false; Unique := false |}];
      Single := false; Unique := false |}].

(** [Store.Save] and [Store.Schema] of the facade. *)
Module StoreData.
Section Facade.
(** The provider behind the store, [graphql.Schema] and [core.DataBlocks]. *)
Context {provider Schema DataBlocks : Type}.

(** [s.p.Save(data)], which returns the tables of the schema. *)
Variable Save_provider : DataBlocks → provider → result (provider * (list Table * option error)).

(** [newGraphQLSchema(tables, s.p)], the builder as this caller has it. *)
Variable newGraphQLSchema : list Table → provider → result (Schema * option error).




Variable idFieldName : string.
Variable Create_provider : list Table → provider → result (provider * option error).


End Facade.
End StoreData.

(** * Properties of the construction of the graph *)

Lemma createFrom_table_unfold t nodes :
  createFrom_table t nodes
  = createFrom (Tables t) (<[Name t := {| NTable := t; Edges := [] |}]> nodes).
Proof.
  destruct t as [n fs js ts s u]; simpl.
  generalize (<[n := {| NTable := mkTable n fs js ts s u; Edges := [] |}]> nodes).
  induction ts as [|c cs IH]; intros m; [done|]. apply IH.
Qed.

Lemma createFrom_cons t ts nodes :
  createFrom (t :: ts) nodes = createFrom ts (createFrom_table t nodes).
Proof. done. Qed.

Lemma connectFrom_table_unfold parent table nodes :
  connectFrom_table parent table nodes
  = match connectJoins (Name table) (Joins table) nodes with
    | (nodes, Some err) => (nodes, Some err)
    | (nodes, None) =>
        let nodes :=
          match parent with
          | Some p => addEdgeFromJoin p (Name table) (Single table) nodes
          | None => nodes
          end in
        ((connectFrom (Tables table) (Some (Name table)) nodes).1, None)
    end.
Proof.
  destruct table as [n fs js ts s u]; simpl.
  destruct (connectJoins n js nodes) as [nodes1 [err|]]; [done|].
  generalize (match parent with
              | Some p => addEdgeFromJoin p n s nodes1
              | None => nodes1
              end).
  induction ts as [|c cs IH]; intros m; [done|]. simpl.
  destruct (connectFrom_table (Some n) c m) as [m' [err|]]; [done|]. apply IH.
Qed.

Lemma flatten_unfold t : flatten t = t :: flattenAll (Tables t).
Proof.
  destruct t as [n fs js ts s u]; simpl. f_equal.
  induction ts as [|c cs IH]; [done|]. unfold flattenAll in *; simpl. by rewrite IH.
Qed.

Lemma flattenAll_cons t ts : flattenAll (t :: ts) = t :: flattenAll (Tables t) ++ flattenAll ts.
Proof. unfold flattenAll at 1; simpl. by rewrite flatten_unfold. Qed.

Lemma tableJoins_unfold parent t :
  tableJoins parent t
  = ((λ j, (JTable j, Name t, JSingle j)) <$> Joins t)
    ++ match parent with
       | Some p => [(p, Name t, Single t)]
       | None => []
       end
    ++ schemaJoins (Some (Name t)) (Tables t).
Proof.
  destruct t as [n fs js ts s u]; simpl. do 2 f_equal.
  induction ts as [|c cs IH]; [done|]. unfold schemaJoins in *; simpl. by rewrite IH.
Qed.

Lemma schemaJoins_cons parent t ts :
  schemaJoins parent (t :: ts) = tableJoins parent t ++ schemaJoins parent ts.
Proof. done. Qed.

Global Opaque createFrom_table connectFrom_table flatten tableJoins.

Lemma dom_addEdgeFromJoin n c u (nodes : gmap string SchemaNode) :
  dom (addEdgeFromJoin n c u nodes) = dom nodes.
Proof. unfold addEdgeFromJoin. by rewrite !dom_alter_L. Qed.

Lemma edgesOf_alter e k (nodes : gmap string SchemaNode) x :
  edgesOf (alter (appendEdge e) k nodes) x
  = edgesOf nodes x ++ (if decide (x = k) then if decide (k ∈ dom nodes) then [e] else [] else []).
Proof.
  unfold edgesOf. destruct (decide (x = k)) as [->|Hne].
  - rewrite lookup_alter_eq. destruct (nodes !! k) as [nd|] eqn:Hk; simpl.
    + rewrite decide_True; [done|]. apply elem_of_dom; eauto.
    + rewrite decide_False; [done|]. by apply not_elem_of_dom.
  - rewrite lookup_alter_ne by done. by rewrite app_nil_r.
Qed.

Lemma edgesOf_addEdgeFromJoin n c u (nodes : gmap string SchemaNode) x :
  n ∈ dom nodes → c ∈ dom nodes →
  edgesOf (addEdgeFromJoin n c u nodes) x = edgesOf nodes x ++ joinEdges x (n, c, u).
Proof.
  intros Hn Hc. unfold addEdgeFromJoin, joinEdges, relOf; simpl.
  rewrite !edgesOf_alter, dom_alter_L, <-app_assoc.
  repeat case_decide; try done; by destruct u.
Qed.

Lemma dom_addJoins evs (nodes : gmap string SchemaNode) : dom (addJoins evs nodes) = dom nodes.
Proof.
  revert nodes; induction evs as [|ev evs IH]; intros nodes; [done|].
  unfold addJoins in *; simpl. by rewrite IH, dom_addEdgeFromJoin.
Qed.

Lemma addJoins_app evs1 evs2 (nodes : gmap string SchemaNode) :
  addJoins (evs1 ++ evs2) nodes = addJoins evs2 (addJoins evs1 nodes).
Proof. apply foldl_app. Qed.

Lemma edgesOf_addJoins evs (nodes : gmap string SchemaNode) x :
  Forall (endsIn (dom nodes)) evs →
  edgesOf (addJoins evs nodes) x = edgesOf nodes x ++ concat (joinEdges x <$> evs).
Proof.
  revert nodes; induction evs as [|[[p c] u] evs IH]; intros nodes Hall.
  - by rewrite app_nil_r.
  - apply Forall_cons in Hall as [[Hp Hc] Hall]; simpl in *.
    unfold addJoins in *; simpl. rewrite IH by (by rewrite dom_addEdgeFromJoin).
    rewrite edgesOf_addEdgeFromJoin by done. by rewrite <-app_assoc.
Qed.

Lemma connectJoins_connects tname joins (nodes : gmap string SchemaNode) :
  tname ∈ dom nodes →
  connects (connectJoins tname joins nodes) nodes
    ((λ j, (JTable j, tname, JSingle j)) <$> joins)
    (Forall (λ j, JTable j ∈ dom nodes) joins)
    (Forall (λ j, JTable j ∈ dom nodes) joins).
Proof.
  revert nodes; induction joins as [|j joins IH]; intros nodes Ht; simpl.
  - exists []. by split_and!.
  - destruct (nodes !! JTable j) as [nd|] eqn:Hj.
    + assert (JTable j ∈ dom nodes) as Hd by (apply elem_of_dom; eauto).
      destruct (IH (addEdgeFromJoin (JTable j) tname (JSingle j) nodes)) as (evs & Hsub & Hres & Hends & Herr & Hall).
      { by rewrite dom_addEdgeFromJoin. }
      rewrite dom_addEdgeFromJoin in *.
      exists ((JTable j, tname, JSingle j) :: evs). split_and!.
      * by apply sublist_skip.
      * by rewrite Hres.
      * by constructor.
      * rewrite Herr, Forall_cons. naive_solver.
      * rewrite Forall_cons. intros [_ ?]. f_equal. auto.
    + apply not_elem_of_dom in Hj. exists []. split_and!; simpl.
      * apply sublist_nil_l.
      * done.
      * done.
      * rewrite Forall_cons. naive_solver.
      * rewrite Forall_cons. naive_solver.
Qed.

Lemma connects_seq res1 res2 nodes joins1 joins2 okTop1 okAll1 okTop2 okAll2 :
  connects res1 nodes joins1 okTop1 okAll1 →
  connects res2 res1.1 joins2 okTop2 okAll2 →
  connects res2 nodes (joins1 ++ joins2) okTop2 (okAll1 ∧ okAll2).
Proof.
  intros (evs1 & Hsub1 & Hres1 & Hends1 & _ & Hall1) (evs2 & Hsub2 & Hres2 & Hends2 & Herr2 & Hall2).
  rewrite Hres1, dom_addJoins in *.
  exists (evs1 ++ evs2). split_and!.
  - by apply sublist_app.
  - by rewrite addJoins_app.
  - by apply Forall_app.
  - done.
  - intros [??]. f_equal; auto.
Qed.

Lemma connects_stop res nodes joins1 joins2 okTop okAll okAll' :
  connects res nodes joins1 okTop okAll → (okAll' → okAll) → (okAll → joins2 = []) →
  connects res nodes (joins1 ++ joins2) okTop okAll'.
Proof.
  intros (evs & Hsub & Hres & Hends & Herr & Hall) Himp Hnil.
  exists evs. split_and!; try done.
  - by apply sublist_inserts_r.
  - intros H. rewrite Hnil by auto. rewrite app_nil_r; auto.
Qed.

Lemma connects_weaken res nodes joins okTop okAll okTop' okAll' :
  connects res nodes joins okTop okAll → (okTop ↔ okTop') → (okAll' → okAll) →
  connects res nodes joins okTop' okAll'.
Proof.
  intros (evs & Hsub & Hres & Hends & Herr & Hall) Htop Himp.
  exists evs. split_and!; try done; [by rewrite Herr | auto].
Qed.

Lemma connects_dom res nodes joins okTop okAll :
  connects res nodes joins okTop okAll → dom res.1 = dom nodes.
Proof. intros (evs & _ & -> & _). apply dom_addJoins. Qed.

Lemma names_cons t ts n :
  n ∈ names (t :: ts) ↔ n = Name t ∨ n ∈ names (Tables t) ∨ n ∈ names ts.
Proof.
  unfold names. rewrite flattenAll_cons, fmap_cons, fmap_app.
  rewrite elem_of_cons, elem_of_app. done.
Qed.

Lemma names_single t n : n ∈ names [t] ↔ n = Name t ∨ n ∈ names (Tables t).
Proof.
  rewrite names_cons. unfold names at 2; simpl. rewrite elem_of_nil. tauto.
Qed.

Lemma connectFrom_connectsAll parent ts : Forall connectsTable ts → connectsAll parent ts.
Proof.
  induction 1 as [|t ts Ht _ IH]; intros nodes Hnames Hparent.
  - exists []. by split_and!.
  - simpl. rewrite schemaJoins_cons.
    destruct (Ht parent nodes) as (evs & Hsub & Hres & Hends & Herr & Hall).
    { intros n Hn. apply Hnames. rewrite names_cons. apply names_single in Hn. tauto. }
    { done. }
    destruct (connectFrom_table parent t nodes) as [nodes1 [err|]] eqn:Hrun; simpl in *.
    + assert (¬ joinsKnown (dom nodes) t) as Hno by (intros Hk; by apply Herr in Hk).
      exists evs. split_and!; try done.
      * by apply sublist_inserts_r.
      * rewrite Forall_cons. split; [done | tauto].
      * rewrite flattenAll_cons, Forall_cons. tauto.
    + assert (dom nodes1 = dom nodes) as Hdom by (subst; apply dom_addJoins).
      destruct (IH nodes1) as (evs2 & Hsub2 & Hres2 & Hends2 & Herr2 & Hall2).
      { intros n Hn. rewrite Hdom. apply Hnames. rewrite names_cons. tauto. }
      { intros p Hp. rewrite Hdom. auto. }
      rewrite Hdom in *. exists (evs ++ evs2). split_and!.
      * by apply sublist_app.
      * by rewrite addJoins_app, <-Hres.
      * by apply Forall_app.
      * rewrite Herr2, Forall_cons. destruct Herr as [Herr _]. tauto.
      * rewrite flattenAll_cons, Forall_cons, Forall_app. intros (? & ? & ?).
        f_equal; [apply Hall; by rewrite flatten_unfold, Forall_cons | auto].
Qed.

Lemma connectFrom_table_connects t : connectsTable t.
Proof.
  induction t as [t IH] using Table_nested_ind. intros parent nodes Hnames Hparent.
  rewrite connectFrom_table_unfold, tableJoins_unfold.
  assert (Name t ∈ dom nodes) as Hname by (apply Hnames, names_single; auto).
  destruct (connectJoins_connects (Name t) (Joins t) nodes Hname)
    as (evs & Hsub & Hres & Hends & Herr & Hall).
  destruct (connectJoins (Name t) (Joins t) nodes) as [nodes1 [err|]]; simpl in *.
  - assert (¬ joinsKnown (dom nodes) t) as Hno by (intros Hk; by apply Herr in Hk).
    exists evs. split_and!; try done.
    + by apply sublist_inserts_r.
    + rewrite flatten_unfold, Forall_cons. tauto.
  - assert (joinsKnown (dom nodes) t) as Hyes by (by apply Herr).
    set (imp := match parent with
                | Some p => [(p, Name t, Single t)]
                | None => []
                end).
    set (nodes2 := match parent with
                   | Some p => addEdgeFromJoin p (Name t) (Single t) nodes1
                   | None => nodes1
                   end).
    assert (nodes2 = addJoins imp nodes1) as Himp by (by destruct parent).
    assert (Forall (endsIn (dom nodes)) imp) as Hendsi.
    { subst imp. destruct parent; constructor; [|done]. split; simpl; auto. }
    assert (dom nodes2 = dom nodes) as Hdom.
    { rewrite Himp, dom_addJoins, Hres. apply dom_addJoins. }
    destruct (connectFrom_connectsAll (Some (Name t)) (Tables t) IH nodes2)
      as (evs3 & Hsub3 & Hres3 & Hends3 & _ & Hall3).
    { intros n Hn. rewrite Hdom. apply Hnames, names_single. auto. }
    { intros p [= <-]. by rewrite Hdom. }
    rewrite Hdom in *. exists (evs ++ imp ++ evs3). split_and!.
    + apply sublist_app; [done|]. by apply sublist_app.
    + by rewrite Hres3, Himp, Hres, !addJoins_app.
    + apply Forall_app; split; [done|]. by apply Forall_app.
    + done.
    + rewrite flatten_unfold, Forall_cons. intros [? ?]. f_equal; [|f_equal]; auto.
Qed.

Lemma connectFrom_connects parent tables : connectsAll parent tables.
Proof. apply connectFrom_connectsAll, Forall_forall. intros t _. apply connectFrom_table_connects. Qed.

Lemma created_trans nodes0 nodes1 nodes2 ns1 ns2 :
  created nodes0 nodes1 ns1 → created nodes1 nodes2 ns2 → created nodes0 nodes2 (ns1 ++ ns2).
Proof.
  intros [Hd1 He1] [Hd2 He2]. split.
  - rewrite Hd2, Hd1, list_to_set_app_L. set_solver.
  - intros k nd Hk. setoid_rewrite elem_of_app.
    destruct (He2 k nd Hk) as [Hk1|]; [|tauto].
    destruct (He1 k nd Hk1); tauto.
Qed.

Lemma names_app_single t ts : names (t :: ts) = names [t] ++ names ts.
Proof.
  unfold names. rewrite <-fmap_app. f_equal. unfold flattenAll; simpl. by rewrite app_nil_r.
Qed.

Lemma createFrom_created_list ts :
  Forall (λ t, ∀ nodes, created nodes (createFrom_table t nodes) (names [t])) ts →
  ∀ nodes, created nodes (createFrom ts nodes) (names ts).
Proof.
  induction 1 as [|t ts Ht _ IH]; intros nodes.
  - split; [set_solver|]. auto.
  - rewrite createFrom_cons, names_app_single.
    eapply created_trans; [apply Ht | apply IH].
Qed.

Lemma createFrom_table_created t :
  ∀ nodes, created nodes (createFrom_table t nodes) (names [t]).
Proof.
  induction t as [t IH] using Table_nested_ind. intros nodes.
  rewrite createFrom_table_unfold.
  replace (names [t]) with ([Name t] ++ names (Tables t)).
  - eapply created_trans; [|apply createFrom_created_list, IH]. split.
    + rewrite dom_insert_L. set_solver.
    + intros k nd. rewrite lookup_insert. case_decide as Hk.
      * intros [= <-]. subst. right. split_and!; [set_solver | done | done].
      * auto.
  - unfold names, flattenAll; simpl. by rewrite app_nil_r, flatten_unfold.
Qed.

Lemma createFrom_created tables : ∀ nodes, created nodes (createFrom tables nodes) (names tables).
Proof.
  apply createFrom_created_list, Forall_forall. intros t _. apply createFrom_table_created.
Qed.

Lemma createFrom_dom tables : dom (createFrom tables ∅) = declared tables.
Proof.
  destruct (createFrom_created tables ∅) as [-> _]. unfold declared, names. set_solver.
Qed.

Lemma createFrom_edgesOf tables x : edgesOf (createFrom tables ∅) x = [].
Proof.
  unfold edgesOf. destruct (createFrom tables ∅ !! x) as [nd|] eqn:Hx; [|done].
  destruct (createFrom_created tables ∅) as [_ He].
  destruct (He _ _ Hx) as [?|(_ & ? & _)]; [done|done].
Qed.

Lemma createFrom_name tables k nd :
  createFrom tables ∅ !! k = Some nd → Name (NTable nd) = k.
Proof.
  intros Hk. destruct (createFrom_created tables ∅) as [_ He].
  destruct (He _ _ Hk) as [?|(_ & _ & ?)]; [done|done].
Qed.

Lemma addEdgeFromJoin_table n c u (nodes : gmap string SchemaNode) k nd :
  addEdgeFromJoin n c u nodes !! k = Some nd →
  ∃ nd0, nodes !! k = Some nd0 ∧ NTable nd0 = NTable nd.
Proof.
  assert (∀ e j (m : gmap string SchemaNode) nd',
            alter (appendEdge e) j m !! k = Some nd' →
            ∃ nd0, m !! k = Some nd0 ∧ NTable nd0 = NTable nd') as Hone.
  { intros e j m nd'. rewrite lookup_alter. case_decide; [subst j|eauto].
    destruct (m !! k) as [nd0|]; intros Heq; simpl in Heq; [|done].
    injection Heq as <-. by exists nd0. }
  unfold addEdgeFromJoin. intros (nd1 & (nd0 & ? & <-)%Hone & <-)%Hone. eauto.
Qed.

Lemma addJoins_table evs (nodes : gmap string SchemaNode) k nd :
  addJoins evs nodes !! k = Some nd → ∃ nd0, nodes !! k = Some nd0 ∧ NTable nd0 = NTable nd.
Proof.
  revert nodes; induction evs as [|ev evs IH]; intros nodes Hk; [eauto|].
  apply IH in Hk as (nd1 & Hk & <-). apply addEdgeFromJoin_table in Hk as (nd0 & ? & <-). eauto.
Qed.

(** What [NewSchemaGraph] returns, in terms of the joins of the description. *)
Lemma NewSchemaGraph_joins tables :
  ∃ evs, evs `sublist_of` schemaJoins None tables
         ∧ Nodes (NewSchemaGraph tables).1 = rootNodes tables
         ∧ NodeIndex (NewSchemaGraph tables).1 = addJoins evs (createFrom tables ∅)
         ∧ (∀ x, edgesOf (NodeIndex (NewSchemaGraph tables).1) x = concat (joinEdges x <$> evs))
         ∧ ((NewSchemaGraph tables).2 = None ↔ Forall (joinsKnown (declared tables)) tables)
         ∧ (joinsDeclared tables → evs = schemaJoins None tables).
Proof.
  destruct (connectFrom_connects None tables (createFrom tables ∅))
    as (evs & Hsub & Hres & Hends & Herr & Hall).
  { intros n Hn. rewrite createFrom_dom. unfold declared. by apply elem_of_list_to_set. }
  { done. }
  rewrite createFrom_dom in *.
  assert (NodeIndex (NewSchemaGraph tables).1 = addJoins evs (createFrom tables ∅)) as Hidx.
  { unfold NewSchemaGraph. by destruct (connectFrom tables None (createFrom tables ∅)) as [? [?|]]. }
  exists evs. split_and!; try done.
  - unfold NewSchemaGraph. by destruct (connectFrom tables None (createFrom tables ∅)) as [? [?|]].
  - intros x. rewrite Hidx, edgesOf_addJoins; [|by rewrite createFrom_dom].
    by rewrite createFrom_edgesOf.
  - rewrite <-Herr. unfold NewSchemaGraph.
    by destruct (connectFrom tables None (createFrom tables ∅)) as [? [?|]].
Qed.


Lemma belongsTo_count evs c p :
  length (filter (λ e, Rel e = BelongsTo) (filter (λ e, Node e = p) (concat (joinEdges c <$> evs))))
  = length (filter (relates p c) evs).
Proof.
  induction evs as [|[[p' c'] u] evs IH]; [done|].
  rewrite fmap_cons; simpl. rewrite !filter_app, !length_app, IH, filter_cons.
  unfold joinEdges, relates, relOf; simpl.
  repeat (case_decide; simpl); destruct_and?; subst;
    rewrite ?filter_cons, ?filter_nil; simpl;
    repeat (case_decide; simpl); destruct_and?; subst; try done;
    try (destruct u; done); try tauto.
Qed.

Lemma forward_count evs p c :
  length (filter (λ e, Rel e ≠ BelongsTo) (filter (λ e, Node e = c) (concat (joinEdges p <$> evs))))
  = length (filter (relates p c) evs).
Proof.
  induction evs as [|[[p' c'] u] evs IH]; [done|].
  rewrite fmap_cons; simpl. rewrite !filter_app, !length_app, IH, filter_cons.
  unfold joinEdges, relates, relOf; simpl.
  repeat (case_decide; simpl); destruct_and?; subst;
    rewrite ?filter_cons, ?filter_nil; simpl;
    repeat (case_decide; simpl); destruct_and?; subst; try done;
    try (destruct u; done); try tauto.
Qed.

Lemma between_count evs a b :
  length (filter (λ e, Node e = b) (concat (joinEdges a <$> evs)))
  = length (filter (relates a b) evs) + length (filter (relates b a) evs).
Proof.
  induction evs as [|[[p' c'] u] evs IH]; [done|].
  rewrite fmap_cons; simpl. rewrite !filter_app, !length_app, IH, !filter_cons.
  unfold joinEdges, relates, relOf; simpl.
  repeat (case_decide; simpl); destruct_and?; subst;
    rewrite ?filter_cons, ?filter_nil; simpl;
    repeat (case_decide; simpl); destruct_and?; subst; try lia; try tauto.
Qed.

(** Every node of a built graph is in the map under the name of its table. *)
Lemma NewSchemaGraph_node_name tables k nd :
  NodeIndex (NewSchemaGraph tables).1 !! k = Some nd → Name (NTable nd) = k.
Proof.
  destruct (NewSchemaGraph_joins tables) as (evs & _ & _ & -> & _).
  intros (nd0 & Hk & <-)%addJoins_table. by eapply createFrom_name.
Qed.

(** ** The edges of a built graph *)

Lemma elem_of_concat {A} (x : A) (ls : list (list A)) :
  x ∈ concat ls ↔ ∃ l, x ∈ l ∧ l ∈ ls.
Proof.
  induction ls as [|l ls IH]; simpl.
  - split; [by intros ?%elem_of_nil | by intros (? & _ & ?%elem_of_nil)].
  - rewrite elem_of_app, IH. setoid_rewrite elem_of_cons. naive_solver.
Qed.

Lemma joinsDeclared_top tables :
  joinsDeclared tables → Forall (joinsKnown (declared tables)) tables.
Proof.
  unfold joinsDeclared. rewrite !Forall_forall. intros Hall t Ht. apply Hall.
  unfold flattenAll. apply elem_of_concat. exists (flatten t). split.
  - rewrite flatten_unfold. apply elem_of_cons; auto.
  - apply list_elem_of_fmap. eauto.
Qed.

(** [NewSchemaGraph] returns an error exactly when a table at the top level
    joins a table that is not declared: an error below the top level is
    dropped. *)
Lemma NewSchemaGraph_error_iff tables :
  is_Some (NewSchemaGraph tables).2
  ↔ Exists (λ t, Exists (λ j, JTable j ∉ declared tables) (Joins t)) tables.
Proof.
  destruct (NewSchemaGraph_joins tables) as (evs & _ & _ & _ & _ & Herr & _).
  rewrite <-not_eq_None_Some, Herr. unfold joinsKnown. split.
  - intros Hno. apply not_Forall_Exists in Hno; [|apply _].
    eapply Exists_impl; [done|]. intros t Ht. by apply not_Forall_Exists in Ht; [|apply _].
  - intros Hex Hall. apply Exists_exists in Hex as (t & Ht & Hex).
    apply Exists_exists in Hex as (j & Hj & Hno).
    rewrite Forall_forall in Hall. specialize (Hall t Ht). rewrite Forall_forall in Hall. auto.
Qed.

Lemma NewSchemaGraph_declared_ok tables :
  joinsDeclared tables → (NewSchemaGraph tables).2 = None.
Proof.
  intros Hdecl. destruct (NewSchemaGraph_joins tables) as (evs & _ & _ & _ & _ & Herr & _).
  by apply Herr, joinsDeclared_top.
Qed.

(** When every join references a declared table, every join of the
    description, explicit or by nesting, has its two edges in the graph. *)
Lemma joins_become_edges tables parent child single :
  joinsDeclared tables →
  (parent, child, single) ∈ schemaJoins None tables →
  {| Node := child; Rel := relOf single |} ∈ edgesOf (NodeIndex (NewSchemaGraph tables).1) parent
  ∧ {| Node := parent; Rel := BelongsTo |} ∈ edgesOf (NodeIndex (NewSchemaGraph tables).1) child.
Proof.
  intros Hdecl Hin.
  destruct (NewSchemaGraph_joins tables) as (evs & _ & _ & _ & Hedges & _ & Hall).
  rewrite !Hedges, (Hall Hdecl). split.
  - apply elem_of_concat. exists (joinEdges parent (parent, child, single)). split.
    + unfold joinEdges; simpl. rewrite decide_True by done. apply elem_of_app. left. apply list_elem_of_singleton. done.
    + apply list_elem_of_fmap. eauto.
  - apply elem_of_concat. exists (joinEdges child (parent, child, single)). split.
    + unfold joinEdges; simpl. rewrite (decide_True (P := child = child)) by done.
      apply elem_of_app. right. apply list_elem_of_singleton. done.
    + apply list_elem_of_fmap. eauto.
Qed.

Lemma NewSchemaGraph_paired tables p c :
  length (belongsToEdges (NodeIndex (NewSchemaGraph tables).1) c p)
  = length (forwardEdges (NodeIndex (NewSchemaGraph tables).1) p c).
Proof.
  destruct (NewSchemaGraph_joins tables) as (evs & _ & _ & _ & Hedges & _).
  unfold belongsToEdges, forwardEdges, edgesBetween. rewrite !Hedges.
  by rewrite belongsTo_count, forward_count.
Qed.

Lemma sublist_filter_length {A} (P : A → Prop) `{!∀ x, Decision (P x)} (l1 l2 : list A) :
  l1 `sublist_of` l2 → length (filter P l1) ≤ length (filter P l2).
Proof.
  induction 1 as [|x l1 l2 _ IH|x l1 l2 _ IH]; [done| |].
  - rewrite !filter_cons. case_decide; simpl; lia.
  - rewrite filter_cons. case_decide; simpl; lia.
Qed.

Lemma NewSchemaGraph_between tables a b :
  length (edgesBetween (NodeIndex (NewSchemaGraph tables).1) a b)
  ≤ joinCount tables a b + joinCount tables b a.
Proof.
  destruct (NewSchemaGraph_joins tables) as (evs & Hsub & _ & _ & Hedges & _).
  unfold edgesBetween, joinCount. rewrite Hedges, between_count.
  apply Nat.add_le_mono; by apply sublist_filter_length.
Qed.

Lemma NewSchemaGraph_between_declared tables a b :
  joinsDeclared tables →
  length (edgesBetween (NodeIndex (NewSchemaGraph tables).1) a b)
  = joinCount tables a b + joinCount tables b a.
Proof.
  intros Hdecl. destruct (NewSchemaGraph_joins tables) as (evs & _ & _ & _ & Hedges & _ & Hall).
  unfold edgesBetween, joinCount. by rewrite Hedges, between_count, (Hall Hdecl).
Qed.

(** ** The joins of a description, table by table *)

Lemma schemaJoins_elem_of parent tables t ev :
  t ∈ tables → ev ∈ tableJoins parent t → ev ∈ schemaJoins parent tables.
Proof.
  intros Ht Hev. apply elem_of_concat. exists (tableJoins parent t). split; [done|].
  apply list_elem_of_fmap. eauto.
Qed.

Lemma flattenAll_elem_of tables t :
  t ∈ flattenAll tables ↔ ∃ top, top ∈ tables ∧ t ∈ flatten top.
Proof.
  unfold flattenAll. rewrite elem_of_concat. split.
  - intros (l & Ht & (top & -> & Htop)%list_elem_of_fmap). eauto.
  - intros (top & Htop & Ht). exists (flatten top). split; [done|].
    apply list_elem_of_fmap. eauto.
Qed.

Lemma joinsOfTables_list tables :
  Forall (λ t, ∀ parent, joinsOfTable parent t) tables → ∀ parent, joinsOfTables parent tables.
Proof.
  rewrite Forall_forall. intros Hall parent. split.
  - intros t j (top & Htop & Ht)%flattenAll_elem_of Hj.
    eapply schemaJoins_elem_of; [done|]. by apply (Hall top Htop parent).
  - intros t c (top & Htop & Ht)%flattenAll_elem_of Hc.
    eapply schemaJoins_elem_of; [done|]. by apply (Hall top Htop parent).
Qed.

Lemma joinsOfTable_all t : ∀ parent, joinsOfTable parent t.
Proof.
  induction t as [t IH] using Table_nested_ind. intros parent.
  pose proof (joinsOfTables_list _ IH (Some (Name t))) as [Hjoins Hnested].
  unfold joinsOfTable. rewrite flatten_unfold, tableJoins_unfold. split.
  - intros t' j [->|Ht']%elem_of_cons Hj; apply elem_of_app.
    + left. apply list_elem_of_fmap. eauto.
    + right. apply elem_of_app. right. by apply Hjoins.
  - intros t' c [->|Ht']%elem_of_cons Hc; apply elem_of_app; right; apply elem_of_app; right.
    + eapply schemaJoins_elem_of; [done|].
      rewrite tableJoins_unfold. apply elem_of_app. right. apply elem_of_app. left.
      apply list_elem_of_here.
    + by apply Hnested.
Qed.

Lemma joinsOfTables_all parent tables : joinsOfTables parent tables.
Proof.
  apply joinsOfTables_list, Forall_forall. intros t _. apply joinsOfTable_all.
Qed.

(** ** Cycles, duplicates and unknown tables *)

Lemma cyclicPair_cyclic : cyclic cyclicPair.
Proof.
  exists "A". apply tc_l with "B"; [|apply tc_once]; exists false.
  - apply list_elem_of_here.
  - apply list_elem_of_further, list_elem_of_here.
Qed.

Lemma cyclicPair_declared : joinsDeclared cyclicPair.
Proof. repeat constructor; by vm_compute. Qed.

(** C1, as the claim states it, fails: the description in which A joins B and
    B joins A has a cycle in its belongs-to projection, and [NewSchemaGraph]
    returns no error for it. *)
Lemma cyclic_schema_not_rejected :
  cyclic cyclicPair ∧ (NewSchemaGraph cyclicPair).2 = None.
Proof. split; [apply cyclicPair_cyclic | reflexivity]. Qed.

(** C1, amended: a description with a cycle in its belongs-to projection, all
    of whose joins reference declared tables, is built into a graph without an
    error, and the BelongsTo edges of the graph have the cycle. *)
Theorem cyclic_schema_is_built tables :
  cyclic tables → joinsDeclared tables →
  (NewSchemaGraph tables).2 = None
  ∧ ∃ n, tc (λ child parent,
               {| Node := parent; Rel := BelongsTo |}
               ∈ edgesOf (NodeIndex (NewSchemaGraph tables).1) child) n n.
Proof.
  intros [n Hcycle] Hdecl. split; [by apply NewSchemaGraph_declared_ok|].
  exists n. eapply (tc_congruence id); [|exact Hcycle].
  intros child parent [single Hjoin]. by eapply joins_become_edges.
Qed.

(** The theorem on the two tables that join each other. *)
Lemma cyclic_schema_is_built_witness :
  (NewSchemaGraph cyclicPair).2 = None
  ∧ ∃ n, tc (λ child parent,
               {| Node := parent; Rel := BelongsTo |}
               ∈ edgesOf (NodeIndex (NewSchemaGraph cyclicPair).1) child) n n.
Proof.
  apply (cyclic_schema_is_built cyclicPair); [apply cyclicPair_cyclic | apply cyclicPair_declared].
Defined.

(** C3, as the claim states it, fails: a table nested in the table that it
    also joins has two edges from that table, and two edges back. *)
Lemma nested_and_joined_twice :
  edgesBetween (NodeIndex (NewSchemaGraph nestedAndJoined).1) "A" "B"
  = [{| Node := "B"; Rel := OneToMany |}; {| Node := "B"; Rel := OneToMany |}]
  ∧ ¬ length (edgesBetween (NodeIndex (NewSchemaGraph nestedAndJoined).1) "A" "B") ≤ 1.
Proof. split; [reflexivity | vm_compute; lia]. Qed.

(** C3, amended: in every graph built from declared tables the edges come in
    pairs, as many BelongsTo edges from a child to a parent as edges of the
    other relationships from the parent to the child; and the edges from a
    node to a node are at most as many as the joins of the description,
    explicit or by nesting, that relate the two tables, in either direction,
    and exactly as many when every join references a declared table. *)
Theorem edges_paired_and_bounded tables :
  (∀ parent child,
     length (belongsToEdges (NodeIndex (NewSchemaGraph tables).1) child parent)
     = length (forwardEdges (NodeIndex (NewSchemaGraph tables).1) parent child))
  ∧ (∀ a b,
       length (edgesBetween (NodeIndex (NewSchemaGraph tables).1) a b)
       ≤ joinCount tables a b + joinCount tables b a)
  ∧ (joinsDeclared tables →
     ∀ a b,
       length (edgesBetween (NodeIndex (NewSchemaGraph tables).1) a b)
       = joinCount tables a b + joinCount tables b a).
Proof.
  split_and!; intros;
    [apply NewSchemaGraph_paired | apply NewSchemaGraph_between
    | by apply NewSchemaGraph_between_declared].
Qed.

Lemma nestedAndJoined_declared : joinsDeclared nestedAndJoined.
Proof. repeat constructor; by vm_compute. Qed.

(** The theorem on the table nested in the table it joins: two edges, two joins. *)
Lemma edges_paired_and_bounded_witness :
  joinsDeclared nestedAndJoined
  ∧ length (edgesBetween (NodeIndex (NewSchemaGraph nestedAndJoined).1) "A" "B")
    = joinCount nestedAndJoined "A" "B" + joinCount nestedAndJoined "B" "A".
Proof.
  split; [apply nestedAndJoined_declared|].
  apply (proj2 (proj2 (edges_paired_and_bounded nestedAndJoined)) nestedAndJoined_declared).
Defined.



Lemma zooWithShops_declared : joinsDeclared zooWithShops.
Proof. repeat constructor. Qed.


(** C9 on the description in which a nested table joins an undeclared table:
    not every join references a declared table, and the construction returns
    no error. *)
Theorem unknown_join_below_top_accepted :
  ¬ joinsDeclared unknownBelow ∧ (NewSchemaGraph unknownBelow).2 = None.
Proof.
  split; [|reflexivity]. intros Hdecl.
  apply Forall_cons in Hdecl as [_ Hdecl]. apply Forall_cons in Hdecl as [Hshops _].
  apply Forall_cons in Hshops as [Hmall _]. by vm_compute in Hmall.
Qed.

(** * Properties of the traversal *)

(** ** The search in big steps *)

Lemma dfsRun_seen follow nodes seen ns order seen' :
  dfsRun follow nodes seen ns order seen' →
  seen' = seen ∪ list_to_set order ∧ NoDup order ∧ ∀ x, x ∈ order → x ∉ seen.
Proof.
  induction 1 as [seen|seen n ns order seen' Hn _ IH
                 |seen n ns below seen1 order seen' Hn _ IH1 _ IH2].
  - split_and!; [set_solver | constructor | by intros x ?%elem_of_nil].
  - done.
  - destruct IH1 as (-> & Hnd1 & Hnew1), IH2 as (-> & Hnd2 & Hnew2). split_and!.
    + rewrite list_to_set_cons, list_to_set_app_L. set_solver.
    + constructor.
      * rewrite elem_of_app. intros [Hin|Hin]; [apply Hnew1 in Hin | apply Hnew2 in Hin]; set_solver.
      * apply NoDup_app. split_and!; [done | | done].
        intros x Hx1 Hx2. apply Hnew2 in Hx2. set_solver.
    + intros x. rewrite elem_of_cons, elem_of_app. intros [->|[Hin|Hin]]; [done| |].
      * apply Hnew1 in Hin. set_solver.
      * apply Hnew2 in Hin. set_solver.
Qed.

Lemma dfsRun_mono follow nodes seen ns order seen' :
  dfsRun follow nodes seen ns order seen' → seen ⊆ seen'.
Proof. intros (-> & _)%dfsRun_seen. set_solver. Qed.

Lemma edgesOf_outside (nodes : gmap string SchemaNode) n : n ∉ dom nodes → edgesOf nodes n = [].
Proof. intros Hn%not_elem_of_dom. unfold edgesOf. by rewrite Hn. Qed.

Lemma targets_outside follow (nodes : gmap string SchemaNode) n :
  n ∉ dom nodes → targets follow nodes n = [].
Proof. intros Hn. unfold targets. by rewrite edgesOf_outside. Qed.

Lemma size_unseen (D seen : gset string) n :
  n ∈ D → n ∉ seen → size (D ∖ seen) = S (size (D ∖ ({[n]} ∪ seen))).
Proof.
  intros HD Hseen.
  replace (D ∖ seen) with ({[n]} ∪ D ∖ ({[n]} ∪ seen)).
  - rewrite size_union by set_solver. by rewrite size_singleton.
  - apply set_eq. intros x. destruct (decide (x = n)); set_solver.
Qed.

Lemma size_unseen_mono (D seen seen' : gset string) :
  seen ⊆ seen' → size (D ∖ seen') ≤ size (D ∖ seen).
Proof. intros Hsub. apply subseteq_size. set_solver. Qed.

Lemma dfsRun_total_step follow (nodes : gmap string SchemaNode) k :
  (∀ ns seen, size (dom nodes ∖ seen) < k → ∃ order seen', dfsRun follow nodes seen ns order seen') →
  ∀ ns seen, size (dom nodes ∖ seen) ≤ k → ∃ order seen', dfsRun follow nodes seen ns order seen'.
Proof.
  intros IHk. induction ns as [|n ns IH]; intros seen Hle; [eauto using dfsRun_nil|].
  destruct (decide (n ∈ seen)) as [Hn|Hn].
  { destruct (IH seen Hle) as (order & seen' & Hrun). eauto using dfsRun_skip. }
  assert (∃ below seen1, dfsRun follow nodes ({[n]} ∪ seen) (targets follow nodes n) below seen1)
    as (below & seen1 & Hrun1).
  { destruct (decide (n ∈ dom nodes)) as [Hin|Hout].
    - apply IHk. rewrite (size_unseen _ _ n) in Hle by done. lia.
    - rewrite targets_outside by done. eauto using dfsRun_nil. }
  destruct (IH seen1) as (order & seen' & Hrun).
  { etrans; [apply size_unseen_mono|exact Hle].
    apply dfsRun_mono in Hrun1. set_solver. }
  eauto using dfsRun_visit.
Qed.

(** The search ends, whatever the nodes to look at and those seen. *)
Lemma dfsRun_total follow (nodes : gmap string SchemaNode) ns seen :
  ∃ order seen', dfsRun follow nodes seen ns order seen'.
Proof.
  assert (∀ k ns seen, size (dom nodes ∖ seen) < k →
            ∃ order seen', dfsRun follow nodes seen ns order seen') as Hall.
  { induction k as [|k IHk]; intros ns' seen' Hlt; [lia|].
    apply (dfsRun_total_step follow nodes k IHk). lia. }
  apply (Hall (S (size (dom nodes ∖ seen)))). lia.
Qed.

(** ** [Traverse] is this search, over all the edges *)

Lemma targets_anyEdge (nodes : gmap string SchemaNode) n :
  targets anyEdge nodes n = Node <$> edgesOf nodes n.
Proof.
  unfold targets. f_equal. induction (edgesOf nodes n) as [|e es IH]; [done|].
  rewrite filter_cons. unfold anyEdge at 1. by rewrite decide_True, IH.
Qed.

Section TraverseRuns.
Context {St : Type}.
Variable fnVisit : string → St → result (St * option error).
Variable nodes : gmap string SchemaNode.

Lemma runVisits_app ns1 ns2 s :
  runVisits fnVisit (ns1 ++ ns2) s
  = match runVisits fnVisit ns1 s with
    | Ok (s, None) => runVisits fnVisit ns2 s
    | stop => stop
    end.
Proof.
  revert s; induction ns1 as [|n ns1 IH]; intros s; [done|]; simpl.
  destruct (fnVisit n s) as [[s1 [err|]]|msg]; [done| |done]. apply IH.
Qed.

Lemma runVisits_cons_app n ns1 ns2 s :
  runVisits fnVisit (n :: ns1 ++ ns2) s
  = match runVisits fnVisit (n :: ns1) s with
    | Ok (s, None) => runVisits fnVisit ns2 s
    | stop => stop
    end.
Proof. apply (runVisits_app (n :: ns1)). Qed.

Lemma visitSchemaNode_step n seen below seen1 fuel s :
  n ∉ seen →
  dfsRun anyEdge nodes ({[n]} ∪ seen) (targets anyEdge nodes n) below seen1 →
  (∀ f s1, size (dom nodes ∖ ({[n]} ∪ seen)) < f →
     edgeLoop (visitSchemaNode fnVisit f nodes) (edgesOf nodes n) ({[n]} ∪ seen) s1
     = Some (visitOutcome seen1 (runVisits fnVisit below s1))) →
  size (dom nodes ∖ seen) < fuel →
  visitSchemaNode fnVisit fuel nodes n seen s
  = Some (visitOutcome seen1 (runVisits fnVisit (n :: below) s)).
Proof.
  intros Hn Hbelow Hloop Hfuel. destruct fuel as [|f]; [lia|]; simpl.
  destruct (fnVisit n s) as [[s1 [err|]]|msg]; [done| |done].
  destruct (decide (n ∈ dom nodes)) as [Hin|Hout].
  - apply Hloop. rewrite (size_unseen _ _ n) in Hfuel by done. lia.
  - rewrite targets_outside in Hbelow by done. inversion Hbelow; subst.
    by rewrite edgesOf_outside.
Qed.

Lemma edgeLoop_run seen ns order seen' :
  dfsRun anyEdge nodes seen ns order seen' →
  ∀ edges, ns = Node <$> edges →
  ∀ fuel s, size (dom nodes ∖ seen) < fuel →
  edgeLoop (visitSchemaNode fnVisit fuel nodes) edges seen s
  = Some (visitOutcome seen' (runVisits fnVisit order s)).
Proof.
  induction 1 as [seen|seen n ns order seen' Hn _ IH
                 |seen n ns below seen1 order seen' Hn Hbelow IH1 Hrest IH2];
    intros edges Hedges fuel s Hfuel.
  - by destruct edges.
  - destruct edges as [|e es]; [done|]. injection Hedges as -> ->; simpl.
    rewrite decide_True by done. by apply IH.
  - destruct edges as [|e es]; [done|]. injection Hedges as -> ->.
    rewrite runVisits_cons_app. cbn [edgeLoop].
    rewrite decide_False by done.
    rewrite (visitSchemaNode_step (Node e) seen below seen1 fuel s Hn Hbelow);
      [|intros f s1 Hf; apply IH1; [apply targets_anyEdge | done] | done].
    destruct (runVisits fnVisit (Node e :: below) s) as [[s2 [err|]]|msg]; [done| |done];
      cbn [visitOutcome].
    apply IH2; [done|]. eapply Nat.le_lt_trans; [|exact Hfuel].
    apply size_unseen_mono. apply dfsRun_mono in Hbelow. set_solver.
Qed.

Lemma visitSchemaNode_run n seen below seen1 fuel s :
  n ∉ seen →
  dfsRun anyEdge nodes ({[n]} ∪ seen) (targets anyEdge nodes n) below seen1 →
  size (dom nodes ∖ seen) < fuel →
  visitSchemaNode fnVisit fuel nodes n seen s
  = Some (visitOutcome seen1 (runVisits fnVisit (n :: below) s)).
Proof.
  intros Hn Hbelow Hfuel. apply visitSchemaNode_step; [done|done| |done].
  intros f s1 Hf. eapply edgeLoop_run; [done | apply targets_anyEdge | done].
Qed.

Lemma traverseLoop_run seen roots order seen' :
  dfsRun anyEdge nodes seen roots order seen' →
  ∀ fuel s, size (dom nodes ∖ seen) < fuel →
  traverseLoop fnVisit fuel nodes roots seen s
  = Some (traverseResult (runVisits fnVisit order s)).
Proof.
  induction 1 as [seen|seen n ns order seen' Hn _ IH
                 |seen n ns below seen1 order seen' Hn Hbelow _ Hrest IH2];
    intros fuel s Hfuel.
  - done.
  - simpl. rewrite decide_True by done. by apply IH.
  - rewrite runVisits_cons_app. cbn [traverseLoop].
    rewrite decide_False by done.
    rewrite (visitSchemaNode_run n seen below seen1) by done.
    destruct (runVisits fnVisit (n :: below) s) as [[s2 [err|]]|msg]; [done| |done];
      cbn [visitOutcome].
    apply IH2. eapply Nat.le_lt_trans; [|exact Hfuel].
    apply size_unseen_mono. apply dfsRun_mono in Hbelow. set_solver.
Qed.
End TraverseRuns.

(** ** The search with a stack is the search in big steps *)

Lemma dfsStack_more_fuel follow (nodes : gmap string SchemaNode) fuel fuel' stack seen order :
  dfsStack follow nodes fuel stack seen = Some order → fuel ≤ fuel' →
  dfsStack follow nodes fuel' stack seen = Some order.
Proof.
  revert fuel' stack seen order; induction fuel as [|fuel IH];
    intros fuel' stack seen order Hrun Hle; [done|].
  destruct fuel' as [|fuel']; [lia|]. simpl in *.
  destruct stack as [|n stack]; [done|]. case_decide.
  - apply IH; [done | lia].
  - destruct (dfsStack follow nodes fuel _ _) as [below|] eqn:Hbelow; [|done].
    by rewrite (IH fuel' _ _ below Hbelow) by lia.
Qed.

Lemma dfsRun_stack follow (nodes : gmap string SchemaNode) seen ns order seen' :
  dfsRun follow nodes seen ns order seen' →
  ∀ stack fuel rest, dfsStack follow nodes fuel stack seen' = Some rest →
  ∃ fuel', dfsStack follow nodes fuel' (ns ++ stack) seen = Some (order ++ rest).
Proof.
  induction 1 as [seen|seen n ns order seen' Hn _ IH
                 |seen n ns below seen1 order seen' Hn _ IH1 _ IH2];
    intros stack fuel rest Hrest.
  - eauto.
  - destruct (IH _ _ _ Hrest) as [fuel' Hrun]. exists (S fuel'); simpl.
    by rewrite decide_True.
  - destruct (IH2 _ _ _ Hrest) as [fuel2 Hrun2].
    destruct (IH1 _ _ _ Hrun2) as [fuel1 Hrun1]. exists (S fuel1); simpl.
    rewrite decide_False by done. by rewrite Hrun1, <-app_assoc.
Qed.

Lemma le_sum_list (x : nat) (l : list nat) : x ∈ l → x ≤ sum_list l.
Proof.
  induction 1 as [|x y l _ IH]; simpl; lia.
Qed.

Lemma targets_length follow (nodes : gmap string SchemaNode) n :
  length (targets follow nodes n) ≤ edgeCount nodes.
Proof.
  unfold targets. rewrite length_fmap. etrans; [apply length_filter|].
  unfold edgesOf, edgeCount. destruct (nodes !! n) as [nd|] eqn:Hn; [|simpl; lia].
  apply le_sum_list, list_elem_of_fmap. exists (n, nd). split; [done|].
  by apply elem_of_map_to_list.
Qed.

Lemma dfsStack_enough_fuel follow (nodes : gmap string SchemaNode) fuel stack seen :
  size (dom nodes ∖ seen) * S (edgeCount nodes) + length stack < fuel →
  is_Some (dfsStack follow nodes fuel stack seen).
Proof.
  revert stack seen; induction fuel as [|fuel IH]; intros stack seen Hfuel; [lia|]; simpl.
  destruct stack as [|n stack]; [done|]. simpl in Hfuel. case_decide as Hn.
  - apply IH. lia.
  - apply fmap_is_Some, IH. rewrite length_app.
    pose proof (targets_length follow nodes n) as Hlen.
    destruct (decide (n ∈ dom nodes)) as [Hin|Hout].
    + rewrite (size_unseen _ _ n) in Hfuel by done. simpl in Hfuel. lia.
    + rewrite targets_outside by done.
      assert (dom nodes ∖ ({[n]} ∪ seen) = dom nodes ∖ seen) as -> by set_solver.
      simpl. lia.
Qed.

Lemma preorderDFS_run follow g order seen' :
  dfsRun follow (NodeIndex g) ∅ (Nodes g) order seen' → preorderDFS follow g = Some order.
Proof.
  intros Hrun. unfold preorderDFS.
  destruct (dfsRun_stack _ _ _ _ _ _ Hrun [] 1 [] eq_refl) as [fuel' Hstack].
  rewrite !app_nil_r in Hstack.
  destruct (dfsStack_enough_fuel follow (NodeIndex g) (dfsFuel g) (Nodes g) ∅) as [order' Hcanon].
  { unfold dfsFuel. rewrite difference_empty_L, size_dom. lia. }
  rewrite Hcanon. f_equal.
  pose proof (dfsStack_more_fuel _ _ _ (fuel' `max` dfsFuel g) _ _ _ Hstack ltac:(lia)) as H1.
  pose proof (dfsStack_more_fuel _ _ _ (fuel' `max` dfsFuel g) _ _ _ Hcanon ltac:(lia)) as H2.
  congruence.
Qed.

(** ** The order of the visits *)

Lemma Traverse_run {St : Type} (fnVisit : string → St → result (St * option error))
    (g : SchemaGraph) (s : St) order seen' :
  dfsRun anyEdge (NodeIndex g) ∅ (Nodes g) order seen' →
  Traverse fnVisit g s = Some (traverseResult (runVisits fnVisit order s)).
Proof.
  intros Hrun. unfold Traverse. eapply traverseLoop_run; [done|].
  rewrite difference_empty_L, size_dom. lia.
Qed.

(** C2, as the claim states it, fails: B belongs to A and to C, and E belongs
    to A. [Traverse] applies the callback to A, B, C, E: it goes from B to C,
    along an edge that is BelongsTo and the only edge from B to C, before it
    comes to E. The search over the forward edges visits A, B, E, C. *)
Lemma traverse_descends_belongs_to :
  Traverse recordVisit (NewSchemaGraph sharedChild).1 [] = Some (Ok (["A"; "B"; "C"; "E"], None))
  ∧ edgesBetween (NodeIndex (NewSchemaGraph sharedChild).1) "B" "C"
    = [{| Node := "C"; Rel := BelongsTo |}]
  ∧ preorderDFS isForward (NewSchemaGraph sharedChild).1 = Some ["A"; "B"; "E"; "C"].
Proof. split_and!; reflexivity. Qed.

(** C2, amended: for every schema graph the pre-order depth-first search that
    follows every edge, BelongsTo edges too, and takes the edges of a node in
    the order of its edge list, visits each node at most once; and [Traverse]
    with any callback and any state returns what the callback makes of the
    nodes in this very order, up to the first call that fails. *)
Theorem Traverse_preorder_all_edges (g : SchemaGraph) :
  ∃ order,
    preorderDFS anyEdge g = Some order
    ∧ NoDup order
    ∧ ∀ (St : Type) (fnVisit : string → St → result (St * option error)) (s : St),
        Traverse fnVisit g s = Some (traverseResult (runVisits fnVisit order s)).
Proof.
  destruct (dfsRun_total anyEdge (NodeIndex g) (Nodes g) ∅) as (order & seen' & Hrun).
  exists order. split_and!.
  - by eapply preorderDFS_run.
  - by apply dfsRun_seen in Hrun as (_ & ? & _).
  - intros St fnVisit s. by eapply Traverse_run.
Qed.

(** * Properties of the GraphQL schema *)

Lemma rootNodes_nil tables : rootNodes tables = [] ↔ Forall (λ t, Joins t ≠ []) tables.
Proof.
  unfold rootNodes. induction tables as [|t ts IH]; [by split|].
  rewrite filter_cons, Forall_cons, <-IH. case_decide as Hj; simpl.
  - split; [done|]. intros [Hne _]. destruct (Joins t); [done | discriminate].
  - split; [|tauto]. intros ->. split; [|done]. intros Hnil. by rewrite Hnil in Hj.
Qed.

Lemma NewSchemaGraph_roots tables : Nodes (NewSchemaGraph tables).1 = rootNodes tables.
Proof. by destruct (NewSchemaGraph_joins tables) as (evs & _ & ? & _). Qed.

Section GraphQLProperties.
Context {FieldResolveFn : Type}.
Variable rangeOrder : ∀ A : Type, gmap string A → list (string * A).
Variable NewSchema :
  gmap string (gqlField FieldResolveFn) → Object FieldResolveFn → Schema FieldResolveFn * option error.

(** The builder has a result for every graph: its two traversals end. *)
Lemma newGraphQLSchema_total (g : SchemaGraph) (resolveFn : FieldResolveFn) :
  is_Some (newGraphQLSchema rangeOrder NewSchema g resolveFn).
Proof.
  unfold newGraphQLSchema. case_decide; [done|].
  destruct (dfsRun_total anyEdge (NodeIndex g) (Nodes g) ∅) as (order & seen' & Hrun).
  rewrite (Traverse_run _ _ _ _ _ Hrun).
  destruct (traverseResult _) as [[fields1 err1]|msg]; [|done].
  rewrite (Traverse_run _ _ _ _ _ Hrun).
  by destruct (traverseResult _) as [[fields2 err2]|msg].
Qed.

(** C10: a graph without root nodes gives the zero value of the schema and
    no error; and a description has no root node as soon as each of its
    top-level tables has an explicit join, an empty description and tables
    that all join in a circle included. *)
Theorem empty_roots_zero_schema (g : SchemaGraph) (tables : list Table)
    (resolveFn : FieldResolveFn) :
  (Nodes g = [] →
   newGraphQLSchema rangeOrder NewSchema g resolveFn = Some (Ok (zeroSchema, None)))
  ∧ (Forall (λ t, Joins t ≠ []) tables →
     newGraphQLSchema rangeOrder NewSchema (NewSchemaGraph tables).1 resolveFn
     = Some (Ok (zeroSchema, None))).
Proof.
  assert (∀ g', Nodes g' = [] →
            newGraphQLSchema rangeOrder NewSchema g' resolveFn = Some (Ok (zeroSchema, None))) as Hzero.
  { intros g' Hnil. unfold newGraphQLSchema. by rewrite Hnil. }
  split; [apply Hzero|]. intros Hjoins. apply Hzero.
  rewrite NewSchemaGraph_roots. by apply rootNodes_nil.
Qed.
(** ** The fields of a table *)

Lemma graphQLFieldType_supported f :
  supported (FType f) → graphQLFieldType f = Ok (scalarFor (FType f)).
Proof. unfold graphQLFieldType. by destruct 1. Qed.

Lemma graphQLFieldType_unsupported f :
  ¬ supported (FType f) → ∃ msg, graphQLFieldType f = Panic msg.
Proof.
  unfold graphQLFieldType. intros Hno.
  destruct (FType f); simpl; eauto; destruct Hno; constructor.
Qed.

Lemma addTableFields_ok fs (acc : gmap string (Field FieldResolveFn) * gmap string gqlType) :
  Forall (λ f, supported (FType f)) fs →
  ∃ acc', addTableFields fs acc = Ok acc'
    ∧ (∀ k, (∃ sc, acc.1 !! k = Some (scalarField sc)) → ∃ sc, acc'.1 !! k = Some (scalarField sc))
    ∧ (∀ f, f ∈ fs → ∃ sc, acc'.1 !! FName f = Some (scalarField sc)).
Proof.
  revert acc; induction fs as [|f fs IH]; intros acc Hall.
  - exists acc. split_and!; [done | done | by intros f ?%elem_of_nil].
  - apply Forall_cons in Hall as [Hf Hall]. simpl.
    rewrite (graphQLFieldType_supported f Hf); simpl.
    destruct (IH (<[FName f := mkGqlField (TScalar (scalarFor (FType f))) ∅ None]> acc.1,
                  <[FName f := TScalar (scalarFor (FType f))]> acc.2) Hall)
      as (acc' & -> & Hkeep & Hnew).
    exists acc'. split_and!; [done | |].
    + intros k [sc' Hk]. apply Hkeep; simpl. rewrite lookup_insert. case_decide; eauto.
    + intros f' [->|Hin]%elem_of_cons; [|by apply Hnew].
      apply Hkeep; simpl. rewrite lookup_insert_eq. by eexists.
Qed.


(** ** The fields of the edges *)



Lemma edgeField_insert (fields : gmap string (gqlField FieldResolveFn)) n type type' args edge :
  fields !! n = Some {| Type_ := Some type; Args := args |} →
  edgeField (<[n := {| Type_ := Some type'; Args := args |}]> fields) edge = edgeField fields edge.
Proof.
  intros Hn. unfold edgeField, objectRef, argsOf. rewrite lookup_insert.
  case_decide as Heq; [|done]. by rewrite <-Heq, Hn.
Qed.

Lemma foldl_ext_all {A B} (f g : A → B → A) (a : A) (l : list B) :
  (∀ a b, f a b = g a b) → foldl f a l = foldl g a l.
Proof. intros Hfg. revert a; induction l as [|b l IH]; intros a; simpl; [done|]. by rewrite Hfg, IH. Qed.

Lemma addEdgeFields_fold n edges (fields : gmap string (gqlField FieldResolveFn)) type args :
  fields !! n = Some {| Type_ := Some type; Args := args |} →
  addEdgeFields n edges fields
  = Ok (<[n := {| Type_ := Some (foldl (λ ty e, AddFieldConfig (Node e) (edgeField fields e) ty)
                                   type edges);
                  Args := args |}]> fields).
Proof.
  revert fields type; induction edges as [|e edges IH]; intros fields type Hn; simpl.
  - by rewrite insert_id.
  - rewrite Hn.
    rewrite (IH _ (AddFieldConfig (Node e) (edgeField fields e) type)) by apply lookup_insert_eq.
    rewrite insert_insert_eq. do 4 f_equal.
    apply foldl_ext_all. intros ty e'. by erewrite edgeField_insert.
Qed.






End GraphQLProperties.

(** The theorem on the empty description and on the two tables that join each
    other. *)
Lemma empty_roots_zero_schema_witness :
  (Nodes (NewSchemaGraph []).1 = []
   ∧ newGraphQLSchema listOrder (λ _ query, (mkSchema (Some query) ∅, None))
       (NewSchemaGraph []).1 tt = Some (Ok (zeroSchema, None)))
  ∧ (Forall (λ t, Joins t ≠ []) cyclicPair
     ∧ newGraphQLSchema listOrder (λ _ query, (mkSchema (Some query) ∅, None))
         (NewSchemaGraph cyclicPair).1 tt = Some (Ok (zeroSchema, None))).
Proof.
  split; split.
  - reflexivity.
  - apply (proj1 (empty_roots_zero_schema listOrder _ (NewSchemaGraph []).1 [] tt)). reflexivity.
  - repeat constructor; discriminate.
  - apply (proj2 (empty_roots_zero_schema listOrder _ (NewSchemaGraph []).1 cyclicPair tt)).
    repeat constructor; discriminate.
Defined.

(** ** The members of the filter *)












Section FilterMembers.
Context {FieldResolveFn : Type}.
Variable rangeOrder : ∀ A : Type, gmap string A → list (string * A).
Hypothesis rangeOrder_perm :
  ∀ (A : Type) (m : gmap string A), rangeOrder A m ≡ₚ map_to_list m.

Lemma elem_of_rangeOrder {A} (m : gmap string A) k v :
  (k, v) ∈ rangeOrder A m ↔ m !! k = Some v.
Proof. by rewrite rangeOrder_perm, elem_of_map_to_list. Qed.


End FilterMembers.

Section FilterOfTable.
Context {FieldResolveFn : Type}.
Variable rangeOrder : ∀ A : Type, gmap string A → list (string * A).
Hypothesis rangeOrder_perm :
  ∀ (A : Type) (m : gmap string A), rangeOrder A m ≡ₚ map_to_list m.


End FilterOfTable.


(** No map at all has the members as the claim states them when the arguments
    have [x], a string, and [x_not], a number. *)
Lemma clash_has_no_filter (args members : gmap string gqlType) :
  args !! "x" = Some (TScalar gqlString) →
  args !! "x_not" = Some (TScalar gqlInt) →
  ¬ (∀ m ty, members !! m = Some ty ↔ ∃ a aty, args !! a = Some aty ∧ filterMember a aty m ty).
Proof.
  intros Hx Hnot Hmembers.
  assert (members !! "x_not_in" = Some (TList (TScalar gqlString))) as H1.
  { apply Hmembers. exists "x", (TScalar gqlString). split; [done|].
    right. exists filterNotIn. split_and!; [|done|done].
    apply list_elem_of_further, list_elem_of_here. }
  assert (members !! "x_not_in" = Some (TList (TScalar gqlInt))) as H2.
  { apply Hmembers. exists "x_not", (TScalar gqlInt). split; [done|].
    right. exists filterIn. split_and!; [|done|done]. apply list_elem_of_here. }
  congruence.
Qed.

Lemma listOrder_perm (A : Type) (m : gmap string A) : listOrder A m ≡ₚ map_to_list m.
Proof. done. Qed.



(** ** The builder on the examples *)




(** * Properties of the schema apply *)

Lemma Apply_one_transaction {Data bubblySchema : Type}
    (psqlApplySchema : bubblySchema → Data → Data * option error)
    (schema : bubblySchema) (c : Cockroachdb.conn Data) :
  Cockroachdb.begun (Cockroachdb.Apply psqlApplySchema schema c).1 = S (Cockroachdb.begun c)
  ∧ (is_Some (Cockroachdb.Apply psqlApplySchema schema c).2 →
     Cockroachdb.committed (Cockroachdb.Apply psqlApplySchema schema c).1 = Cockroachdb.committed c)
  ∧ ((Cockroachdb.Apply psqlApplySchema schema c).2 = None →
     psqlApplySchema schema (Cockroachdb.committed c)
     = (Cockroachdb.committed (Cockroachdb.Apply psqlApplySchema schema c).1, None)).
Proof.
  unfold Cockroachdb.Apply, Cockroachdb.ExecuteTx.
  destruct (psqlApplySchema schema (Cockroachdb.committed c)) as [data [err|]]; simpl.
  - split_and!; [done | done | done].
  - split_and!; [done | by intros [? ?] | done].
Qed.

(** C8: a schema apply of the provider begins one transaction and runs the
    statements of [psqlApplySchema] in it, what they did being committed if
    they return no error and rolled back otherwise; and whenever [Create]
    returns an error, be it the error of the provider or that of the builder
    of the GraphQL schema, the store holds the GraphQL schema it held
    before. *)
Theorem schema_apply_atomic {Data bubblySchema provider Schema : Type}
    (psqlApplySchema : bubblySchema → Data → Data * option error)
    (idFieldName : string)
    (Create_provider : list Table → provider → result (provider * option error))
    (newGraphQLSchema : list Table → provider → result (Schema * option error))
    (schemaD : bubblySchema) (c : Cockroachdb.conn Data)
    (tables : list Table) (s s' : Store.Store provider Schema) (err : error) :
  (Cockroachdb.begun (Cockroachdb.Apply psqlApplySchema schemaD c).1 = S (Cockroachdb.begun c)
   ∧ (is_Some (Cockroachdb.Apply psqlApplySchema schemaD c).2 →
      Cockroachdb.committed (Cockroachdb.Apply psqlApplySchema schemaD c).1
      = Cockroachdb.committed c)
   ∧ ((Cockroachdb.Apply psqlApplySchema schemaD c).2 = None →
      psqlApplySchema schemaD (Cockroachdb.committed c)
      = (Cockroachdb.committed (Cockroachdb.Apply psqlApplySchema schemaD c).1, None)))
  ∧ (Store.Create idFieldName Create_provider newGraphQLSchema tables s = Ok (s', Some err) →
     Store.schema s' = Store.schema s).
Proof.
  split; [apply Apply_one_transaction|]. unfold Store.Create.
  destruct (Create_provider _ _) as [[p' [err1|]]|msg]; simpl; [by intros [= <- _] | | done].
  destruct (newGraphQLSchema _ _) as [[schema' [err2|]]|msg]; simpl; [by intros [= <- _] | done | done].
Qed.

(** The theorem on a store whose builder fails: the provider has the new
    table, the store the old schema. *)
Lemma schema_apply_atomic_witness :
  let s := {| Store.p := 0; Store.schema := ["old"] |} in
  let s' := {| Store.p := 1; Store.schema := ["old"] |} in
  Store.Create "_id" countingProvider namesBuilder [zoo] s
  = Ok (s', Some "falied to build GraphQL schema: nothing to query")
  ∧ Store.schema s' = Store.schema s.
Proof.
  intros s s'.
  assert (Store.Create "_id" countingProvider namesBuilder [zoo] s
          = Ok (s', Some "falied to build GraphQL schema: nothing to query")) as Hrun
    by reflexivity.
  split; [exact Hrun|].
  exact (proj2 (schema_apply_atomic (Data := nat) (λ _ : unit, λ data, (data, None))
                  "_id" countingProvider namesBuilder tt {| Cockroachdb.committed := 0; Cockroachdb.begun := 0 |}
                  [zoo] s s' _) Hrun).
Defined.

(** * More properties of the schema graph *)

(** ** The nodes of a built graph *)

Lemma createFrom_tables_list ts :
  Forall (λ t, ∀ (nodes : gmap string SchemaNode) k nd,
            createFrom_table t nodes !! k = Some nd →
            nodes !! k = Some nd ∨ NTable nd ∈ flatten t) ts →
  ∀ (nodes : gmap string SchemaNode) k nd,
    createFrom ts nodes !! k = Some nd → nodes !! k = Some nd ∨ NTable nd ∈ flattenAll ts.
Proof.
  induction 1 as [|t ts Ht _ IH]; intros nodes k nd Hk; [by left|].
  rewrite createFrom_cons in Hk. rewrite flattenAll_cons, app_comm_cons, <-flatten_unfold.
  rewrite elem_of_app.
  destruct (IH _ _ _ Hk) as [Hk'|Hin]; [|tauto].
  destruct (Ht _ _ _ Hk') as [?|Hin]; tauto.
Qed.

Lemma createFrom_table_tables t :
  ∀ (nodes : gmap string SchemaNode) k nd,
    createFrom_table t nodes !! k = Some nd → nodes !! k = Some nd ∨ NTable nd ∈ flatten t.
Proof.
  induction t as [t IH] using Table_nested_ind. intros nodes k nd.
  rewrite createFrom_table_unfold, flatten_unfold. intros Hk.
  destruct (createFrom_tables_list _ IH _ _ _ Hk) as [Hk'|Hin].
  - rewrite lookup_insert in Hk'. case_decide; [|by left].
    injection Hk' as <-. right. apply list_elem_of_here.
  - right. by apply list_elem_of_further.
Qed.

Lemma createFrom_tables tables k nd :
  createFrom tables ∅ !! k = Some nd → NTable nd ∈ flattenAll tables.
Proof.
  intros Hk. destruct (createFrom_tables_list tables) with (nodes := ∅ : gmap string SchemaNode)
    (k := k) (nd := nd) as [Hempty|?]; [| done | by rewrite lookup_empty in Hempty | done].
  apply Forall_forall. intros t _. apply createFrom_table_tables.
Qed.

Lemma NewSchemaGraph_dom tables : dom (NodeIndex (NewSchemaGraph tables).1) = declared tables.
Proof.
  destruct (NewSchemaGraph_joins tables) as (evs & _ & _ & -> & _).
  by rewrite dom_addJoins, createFrom_dom.
Qed.

Lemma NewSchemaGraph_node_table tables k nd :
  NodeIndex (NewSchemaGraph tables).1 !! k = Some nd → NTable nd ∈ flattenAll tables.
Proof.
  destruct (NewSchemaGraph_joins tables) as (evs & _ & _ & Hidx & _).
  rewrite Hidx. intros (nd0 & Hk & <-)%addJoins_table. by eapply createFrom_tables.
Qed.

(** The index of a built graph, also of one returned with an error, has a node
    for every declared table, nested ones included, and nothing else; the
    node under a name holds a table of the description of that name. *)
Theorem node_index_tables tables :
  (∀ k, is_Some (NodeIndex (NewSchemaGraph tables).1 !! k)
        ↔ ∃ t, t ∈ flattenAll tables ∧ Name t = k)
  ∧ (∀ k nd, NodeIndex (NewSchemaGraph tables).1 !! k = Some nd →
       NTable nd ∈ flattenAll tables ∧ Name (NTable nd) = k).
Proof.
  split.
  - intros k. rewrite <-elem_of_dom, NewSchemaGraph_dom. unfold declared.
    rewrite elem_of_list_to_set, list_elem_of_fmap. naive_solver.
  - intros k nd Hk. split; [by eapply NewSchemaGraph_node_table|].
    by eapply NewSchemaGraph_node_name.
Qed.

(** ** The edge lists *)

Lemma NewSchemaGraph_edges tables :
  joinsDeclared tables →
  (NewSchemaGraph tables).2 = None
  ∧ ∀ x, edgesOf (NodeIndex (NewSchemaGraph tables).1) x
         = concat (joinEdges x <$> schemaJoins None tables).
Proof.
  intros Hdecl. split; [by apply NewSchemaGraph_declared_ok|]. intros x.
  destruct (NewSchemaGraph_joins tables) as (evs & _ & _ & _ & Hedges & _ & Hall).
  by rewrite Hedges, (Hall Hdecl).
Qed.

(** When every join references a declared table, the edges of a node are,
    join by join in the order of the description, the edge to the child for
    a join whose parent the node is, then the BelongsTo edge to the parent
    for a join whose child it is. *)
Theorem edges_in_declaration_order tables :
  joinsDeclared tables →
  (NewSchemaGraph tables).2 = None
  ∧ ∀ x, edgesOf (NodeIndex (NewSchemaGraph tables).1) x
         = concat (joinEdges x <$> schemaJoins None tables).
Proof.
  intros Hdecl. split; [by apply NewSchemaGraph_declared_ok|]. intros x.
  destruct (NewSchemaGraph_joins tables) as (evs & _ & _ & _ & Hedges & _ & Hall).
  by rewrite Hedges, (Hall Hdecl).
Qed.

(** The theorem on the table with two parents: B has the edge to A before the
    edge to C, as its joins are declared. *)
Lemma edges_in_declaration_order_witness :
  joinsDeclared sharedChild
  ∧ edgesOf (NodeIndex (NewSchemaGraph sharedChild).1) "B"
    = concat (joinEdges "B" <$> schemaJoins None sharedChild).
Proof.
  assert (joinsDeclared sharedChild) as Hdecl by (repeat constructor; by vm_compute).
  split; [exact Hdecl|]. exact (proj2 (edges_in_declaration_order sharedChild Hdecl) "B").
Defined.

(** ** [Edge] *)

Lemma firstEdgeTo_Some node edges e :
  firstEdgeTo node edges = Some e ↔
  ∃ before after, edges = before ++ e :: after ∧ Node e = node
                  ∧ Forall (λ e', Node e' ≠ node) before.
Proof.
  induction edges as [|e0 edges IH]; simpl.
  - split; [done|]. by intros ([|??] & ? & ? & _).
  - case_decide as He0.
    + split.
      * intros [= <-]. by exists [], edges.
      * intros ([|e1 before] & after & Heq & Hnode & Hbefore).
        -- by injection Heq as ->.
        -- injection Heq as <- _. by apply Forall_cons in Hbefore as [? _].
    + rewrite IH. split.
      * intros (before & after & -> & Hnode & Hbefore). exists (e0 :: before), after.
        split_and!; [done | done | by constructor].
      * intros ([|e1 before] & after & Heq & Hnode & Hbefore).
        -- injection Heq as -> _. done.
        -- injection Heq as <- ->. apply Forall_cons in Hbefore as [_ ?]. eauto.
Qed.

Lemma firstEdgeTo_None node edges :
  firstEdgeTo node edges = None ↔ filter (λ e, Node e = node) edges = [].
Proof.
  induction edges as [|e0 edges IH]; simpl; [done|].
  rewrite filter_cons. case_decide; [done|]. apply IH.
Qed.

(** [Edge] answers with the first edge of the node to the node of the given
    name, whatever edges to it come after; and it returns an error exactly
    when the node has no edge to that node. *)
Theorem Edge_first_or_error (nodes : gmap string SchemaNode) (n node : string) :
  (∀ e, (Edge nodes n node).1 = Some e ↔
        (Edge nodes n node).2 = None
        ∧ ∃ before after, edgesOf nodes n = before ++ e :: after ∧ Node e = node
                          ∧ Forall (λ e', Node e' ≠ node) before)
  ∧ (is_Some (Edge nodes n node).2 ↔ edgesBetween nodes n node = [])
  ∧ (is_Some (Edge nodes n node).2 ↔ (Edge nodes n node).1 = None).
Proof.
  unfold Edge, edgesBetween.
  destruct (firstEdgeTo node (edgesOf nodes n)) as [e0|] eqn:Hfirst; simpl.
  - split_and!.
    + intros e. split.
      * intros [= <-]. split; [done|]. by apply firstEdgeTo_Some.
      * intros [_ Hfound%firstEdgeTo_Some]. congruence.
    + split; [by intros [? ?]|]. intros Hnil%firstEdgeTo_None. congruence.
    + split; [by intros [? ?] | done].
  - split_and!.
    + intros e. split; [done|]. by intros [? _].
    + split; [intros _; by apply firstEdgeTo_None | eauto].
    + split; eauto.
Qed.

Lemma edgesBetween_split (nodes : gmap string SchemaNode) a b :
  length (edgesBetween nodes a b)
  = length (belongsToEdges nodes a b) + length (forwardEdges nodes a b).
Proof.
  unfold belongsToEdges, forwardEdges.
  induction (edgesBetween nodes a b) as [|e l IH]; [done|].
  rewrite !filter_cons. repeat case_decide; simpl; try lia; tauto.
Qed.

Lemma edgesBetween_both_ways tables (a b : string) :
  length (edgesBetween (NodeIndex (NewSchemaGraph tables).1) a b)
  = length (edgesBetween (NodeIndex (NewSchemaGraph tables).1) b a).
Proof.
  rewrite !edgesBetween_split.
  rewrite (NewSchemaGraph_paired tables b a), <-(NewSchemaGraph_paired tables a b). lia.
Qed.

Lemma Edge_error_iff (nodes : gmap string SchemaNode) (n node : string) :
  (Edge nodes n node).2 = None ↔ edgesBetween nodes n node ≠ [].
Proof.
  unfold Edge, edgesBetween.
  destruct (firstEdgeTo node (edgesOf nodes n)) as [e0|] eqn:Hfirst; simpl.
  - split; [|done]. intros _ Hnil%firstEdgeTo_None. congruence.
  - split; [done|]. intros Hnil. by apply firstEdgeTo_None in Hfirst.
Qed.

(** In a built graph, also in one returned with an error, a node has as many
    edges to a node as this node has edges back: [Edge] finds an edge from
    [a] to [b] exactly when it finds one from [b] to [a]. *)
Theorem Edge_both_ways tables (a b : string) :
  length (edgesBetween (NodeIndex (NewSchemaGraph tables).1) a b)
  = length (edgesBetween (NodeIndex (NewSchemaGraph tables).1) b a)
  ∧ ((Edge (NodeIndex (NewSchemaGraph tables).1) a b).2 = None
     ↔ (Edge (NodeIndex (NewSchemaGraph tables).1) b a).2 = None).
Proof.
  pose proof (edgesBetween_both_ways tables a b) as Hlen. split; [done|].
  rewrite !Edge_error_iff, <-!length_zero_iff_nil, Hlen. done.
Qed.

(** ** The tables of a description and where its joins come from *)

Lemma flatten_head t : t ∈ flatten t.
Proof. rewrite flatten_unfold. apply list_elem_of_here. Qed.

Lemma flattenAll_top tables t : t ∈ tables → t ∈ flattenAll tables.
Proof. intros Ht. apply flattenAll_elem_of. exists t. split; [done | apply flatten_head]. Qed.

Lemma flatten_closed top :
  ∀ s t, s ∈ flatten top → t ∈ Tables s → t ∈ flattenAll (Tables top).
Proof.
  induction top as [top IH] using Table_nested_ind. intros s t Hs Ht.
  rewrite flatten_unfold in Hs. apply elem_of_cons in Hs as [->|Hs].
  - by apply flattenAll_top.
  - apply flattenAll_elem_of in Hs as (c & Hc & Hs).
    rewrite Forall_forall in IH. pose proof (IH c Hc s t Hs Ht) as Hin.
    apply flattenAll_elem_of. exists c. split; [done|].
    rewrite flatten_unfold. by apply list_elem_of_further.
Qed.

Lemma below_elem_of tables s t : s ∈ flattenAll tables → t ∈ Tables s → t ∈ below tables.
Proof.
  intros (top & Htop & Hs)%flattenAll_elem_of Ht. unfold below.
  apply elem_of_concat. exists (flattenAll (Tables top)). split.
  - by eapply flatten_closed.
  - apply list_elem_of_fmap. by exists top.
Qed.

Lemma flattenAll_closed tables s t : s ∈ flattenAll tables → t ∈ Tables s → t ∈ flattenAll tables.
Proof.
  intros (top & Htop & Hs)%flattenAll_elem_of Ht.
  apply flattenAll_elem_of. exists top. split; [done|].
  rewrite flatten_unfold. apply list_elem_of_further. by eapply flatten_closed.
Qed.

Lemma flattenAll_below tables : flattenAll tables ≡ₚ tables ++ below tables.
Proof.
  induction tables as [|t ts IH]; [done|].
  rewrite flattenAll_cons. unfold below in *. rewrite fmap_cons. simpl.
  rewrite IH. apply Permutation_skip.
  rewrite !(assoc_L (++)). apply Permutation_app_tail, Permutation_app_comm.
Qed.

Lemma flatten_placed top :
  ∀ t, t ∈ flatten top → t = top ∨ ∃ s, s ∈ flatten top ∧ t ∈ Tables s.
Proof.
  induction top as [top IH] using Table_nested_ind. intros t Ht.
  rewrite flatten_unfold in Ht. apply elem_of_cons in Ht as [->|Ht]; [by left|]. right.
  apply flattenAll_elem_of in Ht as (c & Hc & Ht).
  rewrite Forall_forall in IH. destruct (IH c Hc t Ht) as [->|(s & Hs & Hts)].
  - exists top. split; [apply flatten_head | done].
  - exists s. split; [|done]. rewrite flatten_unfold. apply list_elem_of_further.
    apply flattenAll_elem_of. eauto.
Qed.

Lemma flattenAll_placed tables t : t ∈ flattenAll tables → placed tables t.
Proof.
  intros (top & Htop & Ht)%flattenAll_elem_of.
  destruct (flatten_placed top t Ht) as [->|(s & Hs & Hts)]; [by left|].
  right. exists s. split; [|done]. apply flattenAll_elem_of. eauto.
Qed.

Lemma fromTables_mono parent t tables ev :
  t ∈ tables → fromTables parent [t] ev → fromTables parent tables ev.
Proof.
  intros Ht. assert (∀ s, s ∈ flattenAll [t] → s ∈ flattenAll tables) as Hsub.
  { intros s (top & ->%list_elem_of_singleton & Hs)%flattenAll_elem_of.
    apply flattenAll_elem_of. eauto. }
  intros [(s & j & Hs & Hj & ->)|[(s & c & Hs & Hc & ->)|(p & t' & -> & ->%list_elem_of_singleton & ->)]].
  - left. exists s, j. auto.
  - right; left. exists s, c. auto.
  - right; right. exists p, t. auto.
Qed.

Lemma schemaJoins_from_list tables :
  Forall (λ t, ∀ parent ev, ev ∈ tableJoins parent t → fromTables parent [t] ev) tables →
  ∀ parent ev, ev ∈ schemaJoins parent tables → fromTables parent tables ev.
Proof.
  intros Hall parent ev (evs & Hev & (t & -> & Ht)%list_elem_of_fmap)%elem_of_concat.
  rewrite Forall_forall in Hall. eapply fromTables_mono; eauto.
Qed.

Lemma tableJoins_from t : ∀ parent ev, ev ∈ tableJoins parent t → fromTables parent [t] ev.
Proof.
  induction t as [t IH] using Table_nested_ind. intros parent ev.
  rewrite tableJoins_unfold, !elem_of_app. intros [Hev|[Hev|Hev]].
  - apply list_elem_of_fmap in Hev as (j & -> & Hj). left. exists t, j.
    split_and!; [|done..]. apply flattenAll_top, list_elem_of_here.
  - destruct parent as [p|]; [|by apply elem_of_nil in Hev].
    apply list_elem_of_singleton in Hev as ->. right; right. exists p, t.
    split_and!; [done | apply list_elem_of_here | done].
  - apply (schemaJoins_from_list _ IH) in Hev.
    assert (∀ s, s ∈ flattenAll (Tables t) → s ∈ flattenAll [t]) as Hsub.
    { intros s Hs. apply flattenAll_elem_of. exists t. split; [apply list_elem_of_here|].
      rewrite flatten_unfold. by apply list_elem_of_further. }
    destruct Hev as [(s & j & Hs & Hj & ->)|[(s & c & Hs & Hc & ->)|(p & c & [= <-] & Hc & ->)]].
    + left. exists s, j. auto.
    + right; left. exists s, c. auto.
    + right; left. exists t, c. split_and!; [|done..]. apply flattenAll_top, list_elem_of_here.
Qed.

Lemma schemaJoins_from parent tables ev :
  ev ∈ schemaJoins parent tables → fromTables parent tables ev.
Proof. apply schemaJoins_from_list, Forall_forall. intros t _. apply tableJoins_from. Qed.

Lemma names_unique tables t t' :
  NoDup (names tables) → t ∈ flattenAll tables → t' ∈ flattenAll tables →
  Name t = Name t' → t = t'.
Proof.
  intros Hnd (i & Hi)%list_elem_of_lookup (i' & Hi')%list_elem_of_lookup Hname.
  assert (i = i') as ->; [|congruence].
  eapply NoDup_lookup; [exact Hnd | ..]; unfold names; rewrite list_lookup_fmap.
  - by rewrite Hi.
  - rewrite Hi'. simpl. by rewrite Hname.
Qed.

Lemma top_not_below tables t :
  NoDup (names tables) → t ∈ tables → t ∉ below tables.
Proof.
  intros Hnd Ht Hbelow. apply NoDup_fmap_1 in Hnd.
  rewrite flattenAll_below in Hnd. apply NoDup_app in Hnd as (_ & Hdisj & _).
  by apply (Hdisj t).
Qed.

(** ** The roots *)

Lemma noParent_root tables x :
  joinsDeclared tables → x ∈ declared tables →
  noParent (NodeIndex (NewSchemaGraph tables).1) x → x ∈ Nodes (NewSchemaGraph tables).1.
Proof.
  intros Hdecl (t & -> & Ht)%elem_of_list_to_set%list_elem_of_fmap Hnone.
  rewrite NewSchemaGraph_roots. unfold rootNodes. apply list_elem_of_fmap.
  exists t. split; [done|]. apply list_elem_of_filter.
  destruct (joinsOfTables_all None tables) as [Hexplicit Hnested].
  assert (Joins t = []) as Hjoins.
  { destruct (Joins t) as [|j js] eqn:Hjs; [done|]. exfalso.
    assert (j ∈ Joins t) as Hj by (rewrite Hjs; apply list_elem_of_here).
    destruct (joins_become_edges _ _ _ _ Hdecl (Hexplicit t j Ht Hj)) as [_ Hedge].
    by apply (Hnone _ Hedge). }
  split; [by rewrite Hjoins|].
  destruct (flattenAll_placed _ _ Ht) as [Htop|(s & Hs & Hts)]; [done|]. exfalso.
  destruct (joins_become_edges _ _ _ _ Hdecl (Hnested s t Hs Hts)) as [_ Hedge].
  by apply (Hnone _ Hedge).
Qed.

Lemma belongsTo_edge tables x e :
  e ∈ edgesOf (NodeIndex (NewSchemaGraph tables).1) x → Rel e = BelongsTo →
  belongsTo tables x (Node e).
Proof.
  destruct (NewSchemaGraph_joins tables) as (evs & Hsub & _ & _ & Hedges & _).
  rewrite Hedges. intros (es & He & (ev & -> & Hev)%list_elem_of_fmap)%elem_of_concat Hrel.
  unfold joinEdges in He. apply elem_of_app in He as [He|He].
  { case_decide; [|by apply elem_of_nil in He].
    apply list_elem_of_singleton in He as ->. simpl in Hrel. by destruct (ev.2). }
  case_decide as Hchild; [|by apply elem_of_nil in He].
  apply list_elem_of_singleton in He as ->. simpl. exists ev.2.
  apply (sublist_subseteq _ _ Hsub) in Hev. subst x. by destruct ev as [[??]?].
Qed.

(** When every join references a declared table and no two tables have the
    same name, the roots of the graph are the nodes without a BelongsTo edge:
    a root belongs to no table, and every other node has an edge to a table
    it belongs to. *)
Theorem roots_belong_to_nothing tables :
  joinsDeclared tables → NoDup (names tables) →
  ∀ x, x ∈ Nodes (NewSchemaGraph tables).1
       ↔ x ∈ declared tables ∧ noParent (NodeIndex (NewSchemaGraph tables).1) x.
Proof.
  intros Hdecl Hnd x. rewrite NewSchemaGraph_roots. unfold rootNodes, noParent.
  rewrite list_elem_of_fmap. split.
  - intros (t0 & -> & [Hjoins Ht0]%list_elem_of_filter). split.
    { unfold declared. apply elem_of_list_to_set, list_elem_of_fmap.
      exists t0. split; [done | by apply flattenAll_top]. }
    intros e He Hrel.
    rewrite (proj2 (NewSchemaGraph_edges tables Hdecl)) in He.
    apply elem_of_concat in He as (es & He & (ev & -> & Hev)%list_elem_of_fmap).
    unfold joinEdges in He. apply elem_of_app in He as [He|He].
    { case_decide; [|by apply elem_of_nil in He].
      apply list_elem_of_singleton in He as ->. simpl in Hrel. by destruct (ev.2). }
    case_decide as Hchild; [|by apply elem_of_nil in He]. clear He Hrel e.
    apply schemaJoins_from in Hev
      as [(t & j & Ht & Hj & ->)|[(s & c & Hs & Hc & ->)|(p & ? & [=] & _)]]; simpl in Hchild.
    + assert (t0 = t) as -> by (eapply names_unique; eauto using flattenAll_top).
      destruct (Joins t); [by apply elem_of_nil in Hj | done].
    + assert (t0 = c) as ->.
      { eapply names_unique; eauto using flattenAll_top, flattenAll_closed. }
      eapply top_not_below; eauto using below_elem_of.
  - intros [Hx Hnone]. pose proof (noParent_root tables x Hdecl Hx Hnone) as Hroot.
    rewrite NewSchemaGraph_roots in Hroot. by apply list_elem_of_fmap in Hroot.
Qed.

(** The theorem on the table with two parents: A and C are the roots. *)
Lemma roots_belong_to_nothing_witness :
  joinsDeclared sharedChild ∧ NoDup (names sharedChild)
  ∧ ("A" ∈ Nodes (NewSchemaGraph sharedChild).1
     ↔ "A" ∈ declared sharedChild ∧ noParent (NodeIndex (NewSchemaGraph sharedChild).1) "A").
Proof.
  assert (joinsDeclared sharedChild) as Hdecl by (repeat constructor; by vm_compute).
  assert (NoDup (names sharedChild)) as Hnd by (apply (bool_decide_unpack _); by vm_compute).
  split; [exact Hdecl|]. split; [exact Hnd|].
  exact (roots_belong_to_nothing sharedChild Hdecl Hnd "A").
Defined.

(** ** The error of the construction *)

Lemma connectJoins_error tname joins : ∀ (nodes nodes' : gmap string SchemaNode) msg,
  connectJoins tname joins nodes = (nodes', Some msg) →
  ∃ known j rest, joins = known ++ j :: rest
    ∧ Forall (λ j, JTable j ∈ dom nodes) known
    ∧ (JTable j ∉ dom nodes)
    ∧ msg = ("join refers to unknown table: " +:+ tname +:+ " --> " +:+ JTable j).
Proof.
  induction joins as [|j joins IH]; intros nodes nodes' msg; simpl; [done|].
  destruct (nodes !! JTable j) as [nd|] eqn:Hj.
  - intros (known & j' & rest & -> & Hknown & Hj' & ->)%IH.
    rewrite dom_addEdgeFromJoin in Hknown, Hj'.
    exists (j :: known), j', rest. split_and!; [done | | done | done].
    constructor; [|done]. apply elem_of_dom. eauto.
  - intros [= <- <-]. exists [], j, joins. split_and!; [done | done | | done].
    by apply not_elem_of_dom.
Qed.

Lemma connectFrom_error tables : ∀ parent (nodes nodes' : gmap string SchemaNode) msg,
  (∀ n, n ∈ names tables → n ∈ dom nodes) →
  (∀ p, parent = Some p → p ∈ dom nodes) →
  connectFrom tables parent nodes = (nodes', Some msg) →
  ∃ before t after known j rest,
    tables = before ++ t :: after
    ∧ Forall (joinsKnown (dom nodes)) before
    ∧ Joins t = known ++ j :: rest
    ∧ Forall (λ j, JTable j ∈ dom nodes) known
    ∧ (JTable j ∉ dom nodes)
    ∧ msg = ("join refers to unknown table: " +:+ Name t +:+ " --> " +:+ JTable j).
Proof.
  induction tables as [|t tables IH]; intros parent nodes nodes' msg Hnames Hparent; simpl; [done|].
  assert (∀ n, n ∈ names [t] → n ∈ dom nodes) as Hnames_t.
  { intros n Hn. apply Hnames. rewrite names_app_single. apply elem_of_app. by left. }
  assert (∀ n, n ∈ names tables → n ∈ dom nodes) as Hnames_ts.
  { intros n Hn. apply Hnames. rewrite names_app_single. apply elem_of_app. by right. }
  pose proof (connectFrom_table_connects t parent nodes Hnames_t Hparent) as Hconn.
  destruct (connectFrom_table parent t nodes) as [nodes1 [err|]] eqn:Hrun.
  - intros [= <- <-]. rewrite connectFrom_table_unfold in Hrun.
    destruct (connectJoins (Name t) (Joins t) nodes) as [nodes2 [err2|]] eqn:Hjoins; [|done].
    injection Hrun as <- <-.
    apply connectJoins_error in Hjoins as (known & j & rest & Hsplit & Hknown & Hj & ->).
    exists [], t, tables, known, j, rest. split_and!; done.
  - pose proof (connects_dom _ _ _ _ _ Hconn) as Hdom. simpl in Hdom.
    destruct Hconn as (_ & _ & _ & _ & [Hok _] & _). specialize (Hok eq_refl).
    intros Hrest. apply IH in Hrest
      as (before & t' & after & known & j & rest & -> & Hbefore & Hsplit & Hknown & Hj & ->).
    + rewrite Hdom in Hbefore, Hknown, Hj.
      exists (t :: before), t', after, known, j, rest.
      split_and!; [done | by constructor | done..].
    + intros n Hn. rewrite Hdom. by apply Hnames_ts.
    + intros p Hp. rewrite Hdom. by apply Hparent.
Qed.

(** When the construction returns an error, the message names the first
    top-level table, in the order of the description, that has a join to an
    undeclared table, and the first such join of this table. *)
Theorem error_names_first_unknown_join tables msg :
  (NewSchemaGraph tables).2 = Some msg →
  ∃ before t after known j rest,
    tables = before ++ t :: after
    ∧ Forall (joinsKnown (declared tables)) before
    ∧ Joins t = known ++ j :: rest
    ∧ Forall (λ j, JTable j ∈ declared tables) known
    ∧ (JTable j ∉ declared tables)
    ∧ msg = ("failed to create graph: join refers to unknown table: "
             +:+ Name t +:+ " --> " +:+ JTable j).
Proof.
  unfold NewSchemaGraph.
  destruct (connectFrom tables None (createFrom tables ∅)) as [nodes' [err|]] eqn:Hrun; [|done].
  simpl. intros [= <-]. apply connectFrom_error in Hrun
    as (before & t & after & known & j & rest & Htables & Hbefore & Hsplit & Hknown & Hj & ->).
  - rewrite createFrom_dom in Hbefore, Hknown, Hj.
    exists before, t, after, known, j, rest. split_and!; try done.
  - intros n Hn. rewrite createFrom_dom. unfold declared. by apply elem_of_list_to_set.
  - done.
Qed.

(** The theorem on three tables, the second and the third of which join
    undeclared tables: the message names B and Y. *)
Lemma error_names_first_unknown_join_witness :
  ∃ msg, (NewSchemaGraph unknownTop).2 = Some msg
    ∧ ∃ before t after known j rest,
        unknownTop = before ++ t :: after
        ∧ Forall (joinsKnown (declared unknownTop)) before
        ∧ Joins t = known ++ j :: rest
        ∧ Forall (λ j, JTable j ∈ declared unknownTop) known
        ∧ (JTable j ∉ declared unknownTop)
        ∧ msg = ("failed to create graph: join refers to unknown table: "
                 +:+ Name t +:+ " --> " +:+ JTable j).
Proof.
  eexists. split; [by vm_compute|].
  apply (error_names_first_unknown_join unknownTop). by vm_compute.
Defined.

(** ** The order of the tables *)

Lemma concat_Permutation {A} (ls1 ls2 : list (list A)) : ls1 ≡ₚ ls2 → concat ls1 ≡ₚ concat ls2.
Proof.
  induction 1 as [|l ls1 ls2 _ IH|l1 l2 ls|ls1 ls2 ls3 _ IH1 _ IH2]; simpl.
  - done.
  - by rewrite IH.
  - rewrite !(assoc_L (++)). apply Permutation_app_tail, Permutation_app_comm.
  - by etrans.
Qed.

Lemma flattenAll_Permutation tables1 tables2 :
  tables1 ≡ₚ tables2 → flattenAll tables1 ≡ₚ flattenAll tables2.
Proof. intros Hperm. unfold flattenAll. by apply concat_Permutation, fmap_Permutation. Qed.

Lemma declared_Permutation tables1 tables2 :
  tables1 ≡ₚ tables2 → declared tables1 = declared tables2.
Proof.
  intros Hperm%flattenAll_Permutation. unfold declared. apply set_eq. intros x.
  rewrite !elem_of_list_to_set. by rewrite Hperm.
Qed.

Lemma joinsDeclared_Permutation tables1 tables2 :
  tables1 ≡ₚ tables2 → joinsDeclared tables1 → joinsDeclared tables2.
Proof.
  intros Hperm. unfold joinsDeclared.
  rewrite (declared_Permutation _ _ Hperm), (flattenAll_Permutation _ _ Hperm). done.
Qed.

Lemma NewSchemaGraph_Permutation tables1 tables2 :
  tables1 ≡ₚ tables2 → joinsDeclared tables1 →
  (NewSchemaGraph tables1).2 = None ∧ (NewSchemaGraph tables2).2 = None
  ∧ dom (NodeIndex (NewSchemaGraph tables1).1) = dom (NodeIndex (NewSchemaGraph tables2).1)
  ∧ Nodes (NewSchemaGraph tables1).1 ≡ₚ Nodes (NewSchemaGraph tables2).1
  ∧ ∀ x, edgesOf (NodeIndex (NewSchemaGraph tables1).1) x
         ≡ₚ edgesOf (NodeIndex (NewSchemaGraph tables2).1) x.
Proof.
  intros Hperm Hdecl1. pose proof (joinsDeclared_Permutation _ _ Hperm Hdecl1) as Hdecl2.
  destruct (NewSchemaGraph_edges _ Hdecl1) as [Hok1 Hedges1].
  destruct (NewSchemaGraph_edges _ Hdecl2) as [Hok2 Hedges2].
  split_and!; [done | done | | |].
  - by rewrite !NewSchemaGraph_dom, (declared_Permutation _ _ Hperm).
  - rewrite !NewSchemaGraph_roots. unfold rootNodes. by rewrite Hperm.
  - intros x. rewrite Hedges1, Hedges2. apply concat_Permutation, fmap_Permutation.
    unfold schemaJoins. by apply concat_Permutation, fmap_Permutation.
Qed.

Section MapOrder.
(** Two orders in which [range] may go through the tables of the map. *)
Variables rangeOrder1 rangeOrder2 : ∀ A : Type, gmap string A → list (string * A).
Hypothesis rangeOrder1_perm : ∀ A (m : gmap string A), rangeOrder1 A m ≡ₚ map_to_list m.
Hypothesis rangeOrder2_perm : ∀ A (m : gmap string A), rangeOrder2 A m ≡ₚ map_to_list m.

(** When every join references a declared table, the graph that
    [newSchemaGraphFromMap] builds does not depend on the order in which
    the tables come out of the map, up to the order of the roots and of the
    edges of each node: it is built without an error, and it has the same
    nodes, the same roots and, node by node, the same edges. *)
Theorem map_order_up_to_edge_order (tables : gmap string Table) :
  joinsDeclared ((rangeOrder1 _ tables).*2) →
  (newSchemaGraphFromMap rangeOrder1 tables).2 = None
  ∧ (newSchemaGraphFromMap rangeOrder2 tables).2 = None
  ∧ dom (NodeIndex (newSchemaGraphFromMap rangeOrder1 tables).1)
    = dom (NodeIndex (newSchemaGraphFromMap rangeOrder2 tables).1)
  ∧ Nodes (newSchemaGraphFromMap rangeOrder1 tables).1
    ≡ₚ Nodes (newSchemaGraphFromMap rangeOrder2 tables).1
  ∧ ∀ x, edgesOf (NodeIndex (newSchemaGraphFromMap rangeOrder1 tables).1) x
         ≡ₚ edgesOf (NodeIndex (newSchemaGraphFromMap rangeOrder2 tables).1) x.
Proof.
  intros Hdecl. unfold newSchemaGraphFromMap. apply NewSchemaGraph_Permutation; [|done].
  apply fmap_Permutation. by rewrite rangeOrder1_perm, rangeOrder2_perm.
Qed.
End MapOrder.

Lemma reverseOrder_perm (A : Type) (m : gmap string A) : reverseOrder A m ≡ₚ map_to_list m.
Proof. unfold reverseOrder. apply reverse_Permutation. Qed.

(** The theorem on the table with two parents, its tables taken from the map
    in one order and in the reverse one. *)
Lemma map_order_up_to_edge_order_witness :
  joinsDeclared ((listOrder _ (tablesByName sharedChild)).*2)
  ∧ ∀ x, edgesOf (NodeIndex (newSchemaGraphFromMap listOrder (tablesByName sharedChild)).1) x
         ≡ₚ edgesOf (NodeIndex (newSchemaGraphFromMap reverseOrder (tablesByName sharedChild)).1) x.
Proof.
  assert (joinsDeclared ((listOrder _ (tablesByName sharedChild)).*2)) as Hdecl.
  { unfold joinsDeclared. apply (bool_decide_unpack _). by vm_compute. }
  split; [exact Hdecl|].
  apply (map_order_up_to_edge_order listOrder reverseOrder listOrder_perm reverseOrder_perm
           (tablesByName sharedChild) Hdecl).
Defined.

(** ** The nodes a traversal visits *)

Lemma dfsRun_closed follow (nodes : gmap string SchemaNode) seen ns order seen' :
  dfsRun follow nodes seen ns order seen' →
  (∀ n, n ∈ ns → n ∈ seen')
  ∧ ∀ x y, x ∈ seen' → x ∉ seen → y ∈ targets follow nodes x → y ∈ seen'.
Proof.
  induction 1 as [seen|seen n ns order seen' Hn Hrun [IHns IH]
                 |seen n ns below seen1 order seen' Hn Hrun1 [IHts IH1] Hrun2 [IHns IH2]].
  - split; [by intros ? ?%elem_of_nil | done].
  - split; [|done]. intros m [->|Hm]%elem_of_cons; [|by apply IHns].
    by apply (dfsRun_mono _ _ _ _ _ _ Hrun).
  - pose proof (dfsRun_mono _ _ _ _ _ _ Hrun1) as Hmono1.
    pose proof (dfsRun_mono _ _ _ _ _ _ Hrun2) as Hmono2.
    split.
    + intros m [->|Hm]%elem_of_cons; [|by apply IHns]. set_solver.
    + intros x y Hx Hseen Hy.
      destruct (decide (x ∈ seen1)) as [Hx1|Hx1]; [|by eapply IH2].
      apply Hmono2. destruct (decide (x = n)) as [->|Hxn]; [by apply IHts|].
      eapply IH1; [done | set_solver | done].
Qed.

Lemma dfsRun_reached follow (nodes : gmap string SchemaNode) seen ns order seen' :
  dfsRun follow nodes seen ns order seen' →
  ∀ x, x ∈ order → ∃ n, n ∈ ns ∧ rtc (λ a b, b ∈ targets follow nodes a) n x.
Proof.
  induction 1 as [seen|seen n ns order seen' Hn Hrun IH
                 |seen n ns below seen1 order seen' Hn Hrun1 IH1 Hrun2 IH2]; intros x Hx.
  - by apply elem_of_nil in Hx.
  - destruct (IH x Hx) as (m & Hm & Hpath). exists m. split; [by apply list_elem_of_further | done].
  - apply elem_of_cons in Hx as [->|[Hx|Hx]%elem_of_app].
    + exists n. split; [apply list_elem_of_here | done].
    + destruct (IH1 x Hx) as (m & Hm & Hpath). exists n.
      split; [apply list_elem_of_here | by eapply rtc_l].
    + destruct (IH2 x Hx) as (m & Hm & Hpath). exists m.
      split; [by apply list_elem_of_further | done].
Qed.

Lemma edgeTo_targets (nodes : gmap string SchemaNode) x y :
  edgeTo nodes x y ↔ y ∈ targets anyEdge nodes x.
Proof.
  rewrite targets_anyEdge, list_elem_of_fmap. unfold edgeTo. naive_solver.
Qed.

Lemma dfsRun_reachable (g : SchemaGraph) order seen' :
  dfsRun anyEdge (NodeIndex g) ∅ (Nodes g) order seen' →
  NoDup order ∧ ∀ x, x ∈ order ↔ reachable g x.
Proof.
  intros Hrun. destruct (dfsRun_seen _ _ _ _ _ _ Hrun) as (Hseen & Hnd & _). split; [done|].
  destruct (dfsRun_closed _ _ _ _ _ _ Hrun) as [Hroots Hclosed].
  assert (∀ x, x ∈ seen' ↔ x ∈ order) as Hin by (intros x; rewrite Hseen; set_solver).
  intros x. split.
  - intros (root & Hroot & Hpath)%(dfsRun_reached _ _ _ _ _ _ Hrun).
    exists root. split; [done|]. eapply rtc_subrel; [|exact Hpath].
    intros a b. by rewrite edgeTo_targets.
  - intros (root & Hroot%Hroots & Hpath). apply Hin.
    induction Hpath as [|a b c Hab%edgeTo_targets _ IH]; [done|].
    apply IH. eapply Hclosed; [exact Hroot | set_solver | done].
Qed.

(** [Traverse] applies the callback to the nodes that can be reached from
    the roots of the graph along its edges, whatever their relationship, to
    each of them once and to no other node, up to the first call that panics
    or returns an error. *)
Theorem Traverse_visits_reachable {St : Type}
    (fnVisit : string → St → result (St * option error)) (g : SchemaGraph) (s : St) :
  ∃ order, Traverse fnVisit g s = Some (traverseResult (runVisits fnVisit order s))
    ∧ NoDup order
    ∧ ∀ x, x ∈ order ↔ reachable g x.
Proof.
  destruct (dfsRun_total anyEdge (NodeIndex g) (Nodes g) ∅) as (order & seen' & Hrun).
  exists order. split; [by eapply Traverse_run|]. by eapply dfsRun_reachable.
Qed.

(** * More properties of the GraphQL schema *)

Lemma graphQLFieldType_Ok f sc :
  graphQLFieldType f = Ok sc → supported (FType f) ∧ sc = scalarFor (FType f).
Proof.
  unfold graphQLFieldType. destruct (FType f); simpl; intros [= <-]; split; (constructor || done).
Qed.

Lemma supported_dec ty : supported ty ∨ ¬ supported ty.
Proof. destruct ty; (by left; constructor) || (right; inversion 1). Qed.


Section GraphQLBuilder.
Context {FieldResolveFn : Type}.
Variable rangeOrder : ∀ A : Type, gmap string A → list (string * A).
Hypothesis rangeOrder_perm :
  ∀ (A : Type) (m : gmap string A), rangeOrder A m ≡ₚ map_to_list m.

(** ** The fields and the arguments of a table *)

Lemma addTableFields_panics fs (acc : gmap string (Field FieldResolveFn) * gmap string gqlType) :
  (∃ msg, addTableFields fs acc = Panic msg) ↔ Exists (λ f, ¬ supported (FType f)) fs.
Proof.
  revert acc; induction fs as [|f fs IH]; intros acc; simpl.
  - rewrite Exists_nil. split; [by intros [? ?] | done].
  - rewrite Exists_cons. destruct (graphQLFieldType f) as [sc|msg] eqn:Hf; simpl.
    + apply graphQLFieldType_Ok in Hf as [Hf _]. rewrite IH. tauto.
    + split; [|eauto]. intros _. left. intros Hsupp.
      by rewrite (graphQLFieldType_supported f Hsupp) in Hf.
Qed.

(** [addGraphFields] panics exactly when some field of the table has a type
    outside Bool, Number, String, Object and Map, a list, a set or a tuple
    for one, wherever the field stands among the fields; and it returns
    exactly when all the fields have such a type. *)
Theorem unsupported_field_panics (t : Table) (fields : gmap string (gqlField FieldResolveFn)) :
  ((∃ msg, addGraphFields rangeOrder t fields = Panic msg)
   ↔ Exists (λ f, ¬ supported (FType f)) (Fields t))
  ∧ ((∃ fields', addGraphFields rangeOrder t fields = Ok fields')
     ↔ Forall (λ f, supported (FType f)) (Fields t)).
Proof.
  assert ((∃ msg, addGraphFields rangeOrder t fields = Panic msg)
          ↔ Exists (λ f, ¬ supported (FType f)) (Fields t)) as Hpanic.
  { rewrite <-(addTableFields_panics (Fields t) (∅, ∅)). unfold addGraphFields.
    destruct (addTableFields (Fields t) (∅, ∅)) as [acc|msg]; simpl.
    - split; by intros [? ?].
    - split; eauto. }
  split; [done|]. split.
  - intros [fields' Hok]. apply Forall_forall. intros f Hf.
    destruct (supported_dec (FType f)) as [?|Hno]; [done|]. exfalso.
    assert (∃ msg, addGraphFields rangeOrder t fields = Panic msg) as [msg Hmsg].
    { apply Hpanic, Exists_exists. eauto. }
    congruence.
  - intros Hall. destruct (addGraphFields rangeOrder t fields) as [fields'|msg] eqn:Hrun; [eauto|].
    exfalso. assert (Exists (λ f, ¬ supported (FType f)) (Fields t)) as Hex.
    { apply Hpanic. eauto. }
    apply Exists_exists in Hex as (f & Hf & Hno).
    rewrite Forall_forall in Hall. by apply Hno, Hall.
Qed.




End GraphQLBuilder.



(** ** What the edges add to an object *)

Section EdgesOfObject.
Context {FieldResolveFn : Type}.

Lemma AddFieldConfig_fold_name (fields : gmap string (gqlField FieldResolveFn)) edges type :
  ObjName (foldl (λ ty e, AddFieldConfig (Node e) (edgeField fields e) ty) type edges)
  = ObjName type.
Proof.
  induction edges as [|e edges IH] using rev_ind; [done|].
  rewrite foldl_snoc. unfold AddFieldConfig at 1. by case_decide.
Qed.



Lemma addGraphEdges_entry (nodes : gmap string SchemaNode) (n : string)
    (fields : gmap string (gqlField FieldResolveFn)) (type : Object FieldResolveFn)
    (args : gmap string gqlType) :
  fields !! n = Some {| Type_ := Some type; Args := args |} →
  ∃ fields' type',
    addGraphEdges nodes n fields = Ok fields'
    ∧ fields' !! n = Some {| Type_ := Some type'; Args := args |}
    ∧ ObjName type' = ObjName type
    ∧ (∀ k, k ≠ n → fields' !! k = fields !! k).
Proof.
  intros Hn. unfold addGraphEdges. rewrite (addEdgeFields_fold _ _ _ _ _ Hn).
  eexists _, _. split_and!; [done | apply lookup_insert_eq | apply AddFieldConfig_fold_name |].
  intros k Hk. by rewrite lookup_insert_ne.
Qed.

End EdgesOfObject.


(** ** The query object *)

Lemma built_edge_inside tables x e :
  e ∈ edgesOf (NodeIndex (NewSchemaGraph tables).1) x →
  Node e ∈ dom (NodeIndex (NewSchemaGraph tables).1).
Proof.
  intros He. destruct (decide (Node e ∈ dom (NodeIndex (NewSchemaGraph tables).1)))
    as [?|Hout]; [done|]. exfalso.
  pose proof (edgesBetween_both_ways tables x (Node e)) as Hlen.
  unfold edgesBetween at 2 in Hlen. rewrite (edgesOf_outside _ _ Hout) in Hlen.
  assert (e ∈ edgesBetween (NodeIndex (NewSchemaGraph tables).1) x (Node e)) as Hin.
  { unfold edgesBetween. by apply list_elem_of_filter. }
  destruct (edgesBetween _ x (Node e)); [by apply elem_of_nil in Hin | done].
Qed.

Lemma built_reachable_inside tables x :
  reachable (NewSchemaGraph tables).1 x → x ∈ dom (NodeIndex (NewSchemaGraph tables).1).
Proof.
  intros (root & Hroot & Hpath). apply rtc_inv_r in Hpath as [<-|(a & _ & e & He & <-)].
  - rewrite NewSchemaGraph_dom. rewrite NewSchemaGraph_roots in Hroot. unfold rootNodes in Hroot.
    apply list_elem_of_fmap in Hroot as (t & -> & [_ Ht]%list_elem_of_filter).
    unfold declared. apply elem_of_list_to_set, list_elem_of_fmap.
    exists t. split; [done | by apply flattenAll_top].
  - by eapply built_edge_inside.
Qed.

Lemma Forall_supported_dec fs :
  Forall (λ f, supported (FType f)) fs ∨ Exists (λ f, ¬ supported (FType f)) fs.
Proof.
  induction fs as [|f fs [IH|IH]]; [by left | |].
  - destruct (supported_dec (FType f)); [left | right]; by constructor.
  - right. by constructor.
Qed.

Lemma unsupported_among (nodes : gmap string SchemaNode) (order : list string) :
  (∃ n nd, n ∈ order ∧ nodes !! n = Some nd
           ∧ Exists (λ f, ¬ supported (FType f)) (Fields (NTable nd)))
  ∨ (∀ n nd, n ∈ order → nodes !! n = Some nd →
       Forall (λ f, supported (FType f)) (Fields (NTable nd))).
Proof.
  induction order as [|n order [IH|IH]].
  - right. by intros n nd ?%elem_of_nil.
  - left. destruct IH as (m & nd & Hm & Hnd & Hbad). exists m, nd.
    split_and!; [by apply list_elem_of_further | done | done].
  - destruct (nodes !! n) as [nd|] eqn:Hn.
    + destruct (Forall_supported_dec (Fields (NTable nd))) as [Hok|Hbad].
      * right. intros m nd' [->|Hm]%elem_of_cons Hnd'; [|by eapply IH].
        rewrite Hn in Hnd'. by injection Hnd' as <-.
      * left. exists n, nd. split_and!; [apply list_elem_of_here | done | done].
    + right. intros m nd' [->|Hm]%elem_of_cons Hnd'; [congruence | by eapply IH].
Qed.

Section QueryObject.
Context {FieldResolveFn : Type}.
Variable rangeOrder : ∀ A : Type, gmap string A → list (string * A).
Hypothesis rangeOrder_perm :
  ∀ (A : Type) (m : gmap string A), rangeOrder A m ≡ₚ map_to_list m.
Variable NewSchema :
  gmap string (gqlField FieldResolveFn) → Object FieldResolveFn → Schema FieldResolveFn * option error.

Lemma addGraphFields_entry (t : Table) :
  Forall (λ f, supported (FType f)) (Fields t) →
  ∃ type args,
    ObjName type = Name t
    ∧ ∀ fields : gmap string (gqlField FieldResolveFn),
        addGraphFields rangeOrder t fields
        = Ok (<[Name t := {| Type_ := Some type; Args := args |}]> fields).
Proof.
  intros Hall. unfold addGraphFields.
  destruct (addTableFields_ok (FieldResolveFn := FieldResolveFn) (Fields t) (∅, ∅) Hall)
    as (acc & -> & _); simpl.
  eexists _, _. split; [|done]. done.
Qed.

Lemma runVisits_fields (g : SchemaGraph) order :
  (∀ n, n ∈ order →
     ∃ nd, NodeIndex g !! n = Some nd ∧ Name (NTable nd) = n
           ∧ Forall (λ f, supported (FType f)) (Fields (NTable nd))) →
  ∀ fields : gmap string (gqlField FieldResolveFn),
    ∃ fields',
      runVisits (visitFields rangeOrder g) order fields = Ok (fields', None)
      ∧ (∀ k, k ∉ order → fields' !! k = fields !! k)
      ∧ (∀ k, k ∈ order →
           ∃ nd type args,
             NodeIndex g !! k = Some nd
             ∧ addGraphFields rangeOrder (NTable nd) ∅
               = Ok {[k := {| Type_ := Some type; Args := args |}]}
             ∧ fields' !! k = Some {| Type_ := Some type; Args := args |}
             ∧ ObjName type = k).
Proof.
  induction order as [|n order IH]; intros Hnodes fields.
  - exists fields. split_and!; [done | done | by intros k ?%elem_of_nil].
  - destruct (Hnodes n) as (nd & Hnd & Hname & Hsupp); [apply list_elem_of_here|].
    destruct (addGraphFields_entry _ Hsupp) as (type & args & Hobj & Hadd).
    rewrite Hname in Hobj, Hadd.
    destruct (IH (λ m Hm, Hnodes m (list_elem_of_further _ _ _ Hm))
                (<[n := {| Type_ := Some type; Args := args |}]> fields))
      as (fields' & Hrun & Hout & Hin).
    exists fields'. split_and!.
    + cbn [runVisits]. unfold visitFields at 1. rewrite Hnd, Hadd. simpl. exact Hrun.
    + intros k [Hne Hk]%not_elem_of_cons. by rewrite Hout, lookup_insert_ne.
    + intros k Hk. destruct (decide (k ∈ order)) as [?|Hnot]; [by apply Hin|].
      apply elem_of_cons in Hk as [->|?]; [|done].
      exists nd, type, args. split_and!; [done | | | done].
      * by rewrite Hadd, insert_empty.
      * by rewrite Hout, lookup_insert_eq.
Qed.

Lemma entryShape_object (fields fields' : gmap string (gqlField FieldResolveFn)) k :
  entryShape <$> fields' !! k = entryShape <$> fields !! k →
  ∀ type args, fields !! k = Some {| Type_ := Some type; Args := args |} →
    ∃ type', fields' !! k = Some {| Type_ := Some type'; Args := args |}
             ∧ ObjName type' = ObjName type.
Proof.
  intros Hshape type args Hk. rewrite Hk in Hshape.
  destruct (fields' !! k) as [[[type'|] args']|]; simplify_eq/=.
  exists type'. by split.
Qed.

Lemma runVisits_edges (g : SchemaGraph) order :
  ∀ fields : gmap string (gqlField FieldResolveFn),
    (∀ n, n ∈ order → ∃ type args, fields !! n = Some {| Type_ := Some type; Args := args |}) →
    ∃ fields',
      runVisits (visitEdges g) order fields = Ok (fields', None)
      ∧ ∀ k, entryShape <$> fields' !! k = entryShape <$> fields !! k.
Proof.
  induction order as [|n order IH]; intros fields Hobjects.
  - by exists fields.
  - destruct (Hobjects n) as (type & args & Hn); [apply list_elem_of_here|].
    destruct (addGraphEdges_entry (NodeIndex g) n fields type args Hn)
      as (fields1 & type1 & Hrun1 & Hn1 & Hname1 & Hother).
    assert (∀ k, entryShape <$> fields1 !! k = entryShape <$> fields !! k) as Hshape1.
    { intros k. destruct (decide (k = n)) as [->|Hne]; [|by rewrite Hother].
      rewrite Hn1, Hn. unfold entryShape; simpl. by rewrite Hname1. }
    destruct (IH fields1) as (fields' & Hrun & Hshape).
    { intros m Hm. destruct (Hobjects m) as (type_m & args_m & Hm'); [by apply list_elem_of_further|].
      destruct (entryShape_object _ _ m (Hshape1 m) _ _ Hm') as (type' & ? & _). eauto. }
    exists fields'. split.
    + cbn [runVisits]. unfold visitEdges at 1. rewrite Hrun1. simpl. exact Hrun.
    + intros k. by rewrite Hshape, Hshape1.
Qed.

Lemma addQueryFields_ok (resolveFn : FieldResolveFn) entries :
  (∀ key field, (key, field) ∈ entries →
     ∃ type, Type_ field = Some type ∧ ObjName type = key) →
  ∀ acc, addQueryFields resolveFn entries acc
         = Ok (foldl insertEntry acc (queryField resolveFn <$> entries)).
Proof.
  induction entries as [|[key field] entries IH]; intros Hobjects acc; [done|].
  destruct (Hobjects key field) as (type & Htype & Hname); [apply list_elem_of_here|].
  cbn [addQueryFields]. rewrite Htype, Hname.
  rewrite IH; [done|]. intros key' field' Hin. apply Hobjects. by apply list_elem_of_further.
Qed.

Lemma newGraphQLSchema_runs (tables : list Table) (resolveFn : FieldResolveFn) :
  (∀ k nd, reachable (NewSchemaGraph tables).1 k →
     NodeIndex (NewSchemaGraph tables).1 !! k = Some nd →
     Forall (λ f, supported (FType f)) (Fields (NTable nd))) →
  Nodes (NewSchemaGraph tables).1 ≠ [] →
  ∃ fields,
    newGraphQLSchema rangeOrder NewSchema (NewSchemaGraph tables).1 resolveFn
    = Some (Ok (NewSchema fields
                  {| ObjName := "query";
                     ObjFields := foldl insertEntry ∅ (queryField resolveFn <$> rangeOrder _ fields) |}))
    ∧ (∀ k, reachable (NewSchemaGraph tables).1 k → is_Some (fields !! k))
    ∧ ∀ k e, fields !! k = Some e →
        reachable (NewSchemaGraph tables).1 k
        ∧ ∃ nd type (type0 : Object FieldResolveFn),
            e = {| Type_ := Some type; Args := Args e |} ∧ ObjName type = k
            ∧ NodeIndex (NewSchemaGraph tables).1 !! k = Some nd
            ∧ addGraphFields rangeOrder (NTable nd) ∅
              = Ok {[k := {| Type_ := Some type0; Args := Args e |}]}.
Proof.
  intros Hsupp Hroots. set (g := (NewSchemaGraph tables).1) in *.
  destruct (dfsRun_total anyEdge (NodeIndex g) (Nodes g) ∅) as (order & seen' & Hrun).
  destruct (dfsRun_reachable g order seen' Hrun) as [_ Hreach].
  assert (∀ n, n ∈ order →
            ∃ nd, NodeIndex g !! n = Some nd ∧ Name (NTable nd) = n
                  ∧ Forall (λ f, supported (FType f)) (Fields (NTable nd))) as Hnodes.
  { intros n Hn%Hreach. pose proof (built_reachable_inside _ _ Hn) as [nd Hnd]%elem_of_dom.
    exists nd. split_and!; [done | by eapply NewSchemaGraph_node_name | by eapply Hsupp]. }
  destruct (runVisits_fields g order Hnodes ∅) as (fields1 & Hrun1 & Hout1 & Hin1).
  destruct (runVisits_edges g order fields1) as (fields2 & Hrun2 & Hshape).
  { intros n (nd & type & args & _ & _ & Hn & _)%Hin1. eauto. }
  assert (∀ k e, fields2 !! k = Some e →
            reachable g k ∧ ∃ nd type (type0 : Object FieldResolveFn),
              e = {| Type_ := Some type; Args := Args e |} ∧ ObjName type = k
              ∧ NodeIndex g !! k = Some nd
              ∧ addGraphFields rangeOrder (NTable nd) ∅
                = Ok {[k := {| Type_ := Some type0; Args := Args e |}]}) as Hentries.
  { intros k e Hk. destruct (decide (k ∈ order)) as [Hin|Hnot].
    - split; [by apply Hreach|].
      destruct (Hin1 k Hin) as (nd & type0 & args & Hnd & Hadd & Hk1 & Hname).
      destruct (entryShape_object _ _ k (Hshape k) _ _ Hk1) as (type & Hk2 & Hname2).
      rewrite Hk in Hk2. injection Hk2 as ->. simpl.
      exists nd, type, type0. split_and!; [done | congruence | done | done].
    - specialize (Hshape k). rewrite Hk, (Hout1 k Hnot), lookup_empty in Hshape. done. }
  exists fields2. split_and!; [| |done].
  - unfold newGraphQLSchema. rewrite decide_False by (by destruct (Nodes g)).
    rewrite (Traverse_run _ _ _ _ _ Hrun), Hrun1. cbn [traverseResult].
    rewrite (Traverse_run _ _ _ _ _ Hrun), Hrun2. cbn [traverseResult].
    rewrite addQueryFields_ok; [done|].
    intros key field Hin%(elem_of_rangeOrder rangeOrder rangeOrder_perm).
    destruct (Hentries key field Hin) as (_ & nd & type & type0 & -> & Hname & _). eauto.
  - intros k (nd & type0 & args & _ & _ & Hk1 & _)%Hreach%Hin1.
    destruct (entryShape_object _ _ k (Hshape k) _ _ Hk1) as (type & Hk2 & _). eauto.
Qed.


Lemma runVisits_fields_panic (g : SchemaGraph) order :
  (∀ n, n ∈ order → is_Some (NodeIndex g !! n)) →
  (∃ n nd, n ∈ order ∧ NodeIndex g !! n = Some nd
           ∧ Exists (λ f, ¬ supported (FType f)) (Fields (NTable nd))) →
  ∀ fields : gmap string (gqlField FieldResolveFn),
    ∃ msg, runVisits (visitFields rangeOrder g) order fields = Panic msg.
Proof.
  induction order as [|n order IH]; intros Hnodes (m & nd & Hm & Hnd & Hbad) fields.
  - by apply elem_of_nil in Hm.
  - cbn [runVisits]. unfold visitFields at 1.
    destruct (Hnodes n) as [nd' Hnd']; [apply list_elem_of_here|]. rewrite Hnd'.
    destruct (addGraphFields rangeOrder (NTable nd') fields) as [fields'|msg] eqn:Hadd;
      simpl; [|eauto].
    apply IH; [intros k Hk; by apply Hnodes, list_elem_of_further|].
    apply elem_of_cons in Hm as [->|Hm]; [|eauto]. exfalso.
    rewrite Hnd in Hnd'. injection Hnd' as <-.
    assert (∃ msg, addGraphFields rangeOrder (NTable nd) fields = Panic msg) as [msg Hmsg].
    { unfold addGraphFields.
      destruct (proj2 (addTableFields_panics (FieldResolveFn := FieldResolveFn)
                         (Fields (NTable nd)) (∅, ∅)) Hbad) as [msg ->]. eauto. }
    congruence.
Qed.

(** For the graph of a description that has a root, [newGraphQLSchema]
    panics exactly when some table that can be reached from the roots has a
    field of an unsupported type; such a field of a table that cannot be
    reached does no harm. *)
Theorem unsupported_reachable_field_panics (tables : list Table) (resolveFn : FieldResolveFn) :
  Nodes (NewSchemaGraph tables).1 ≠ [] →
  (∃ msg, newGraphQLSchema rangeOrder NewSchema (NewSchemaGraph tables).1 resolveFn
          = Some (Panic msg))
  ↔ ∃ k nd, reachable (NewSchemaGraph tables).1 k
            ∧ NodeIndex (NewSchemaGraph tables).1 !! k = Some nd
            ∧ Exists (λ f, ¬ supported (FType f)) (Fields (NTable nd)).
Proof.
  intros Hroots. split.
  - intros [msg Hpanic].
    destruct (dfsRun_total anyEdge (NodeIndex (NewSchemaGraph tables).1)
                (Nodes (NewSchemaGraph tables).1) ∅) as (order & seen' & Hrun).
    destruct (dfsRun_reachable _ order seen' Hrun) as [_ Hreach].
    destruct (unsupported_among (NodeIndex (NewSchemaGraph tables).1) order)
      as [(k & nd & Hk%Hreach & Hnd & Hbad)|Hgood]; [eauto|]. exfalso.
    destruct (newGraphQLSchema_runs tables resolveFn) as (fields & Hok & _); [|done|].
    { intros k nd Hk%Hreach Hnd. by eapply Hgood. }
    congruence.
  - intros (k & nd & Hk & Hnd & Hbad). set (g := (NewSchemaGraph tables).1) in *.
    destruct (dfsRun_total anyEdge (NodeIndex g) (Nodes g) ∅) as (order & seen' & Hrun).
    destruct (dfsRun_reachable g order seen' Hrun) as [_ Hreach].
    destruct (runVisits_fields_panic g order) with (fields := ∅ : gmap string (gqlField FieldResolveFn))
      as [msg Hmsg].
    { intros n Hn%Hreach%built_reachable_inside. by apply elem_of_dom. }
    { exists k, nd. split_and!; [by apply Hreach | done | done]. }
    exists msg. unfold newGraphQLSchema. rewrite decide_False by (by destruct (Nodes g)).
    by rewrite (Traverse_run _ _ _ _ _ Hrun), Hmsg.
Qed.

End QueryObject.


(** The theorem on the zoo with its tags: the builder panics. *)
Lemma unsupported_reachable_field_panics_witness :
  Nodes (NewSchemaGraph [tableWithList]).1 ≠ []
  ∧ ((∃ msg, newGraphQLSchema listOrder (λ fields query, (mkSchema (Some query) fields, None))
               (NewSchemaGraph [tableWithList]).1 tt = Some (Panic msg))
     ↔ ∃ k nd, reachable (NewSchemaGraph [tableWithList]).1 k
               ∧ NodeIndex (NewSchemaGraph [tableWithList]).1 !! k = Some nd
               ∧ Exists (λ f, ¬ supported (FType f)) (Fields (NTable nd))).
Proof.
  assert (Nodes (NewSchemaGraph [tableWithList]).1 ≠ []) as Hroots by (by vm_compute).
  split; [exact Hroots|].
  exact (unsupported_reachable_field_panics listOrder listOrder_perm
           (λ fields query, (mkSchema (Some query) fields, None)) [tableWithList] tt Hroots).
Defined.

(** * The implicit identifiers of the store *)

Section ImplicitIDs.
Variable idFieldName : string.

Lemma addImplicitIDs_table_unfold parent t :
  Store.addImplicitIDs_table idFieldName parent t
  = {| Name := Name t;
       Fields :=
         (let fields := Fields t ++ [{| FName := idFieldName; FType := ctyNumber; FUnique := false |}] in
          match parent with
          | Some parentName =>
              if Store.hasField (parentName +:+ "_id") fields then fields
              else fields ++ [{| FName := parentName +:+ "_id"; FType := ctyNumber; FUnique := false |}]
          | None => fields
          end);
       Joins := Joins t;
       Tables := Store.addImplicitIDs idFieldName (Some (Name t)) (Tables t);
       Single := Single t;
       Unique := Unique t |}.
Proof.
  by destruct t as [n fs js ts s u].
Qed.

Lemma addImplicitIDs_table_parent p t :
  Exists (λ f, FName f = p +:+ "_id") (Fields (Store.addImplicitIDs_table idFieldName (Some p) t)).
Proof.
  rewrite addImplicitIDs_table_unfold. simpl. unfold Store.hasField.
  case_bool_decide as Hhas; [done|].
  apply Exists_app. right. by constructor.
Qed.

Lemma addImplicitIDs_table_with parent t :
  withImplicitIDs idFieldName t (Store.addImplicitIDs_table idFieldName parent t).
Proof.
  rewrite addImplicitIDs_table_unfold. unfold withImplicitIDs; simpl.
  split_and!; [done.. | by unfold Store.addImplicitIDs; rewrite length_fmap |].
  destruct parent as [p|]; [destruct (Store.hasField _ _)|].
  - exists []. split_and!; [done | simpl; lia | done].
  - eexists [_]. rewrite <-app_assoc. split_and!; [done | simpl; lia | by repeat constructor].
  - exists []. split_and!; [done | simpl; lia | done].
Qed.

Lemma addImplicitIDs_flattenAll tables :
  Forall (λ t, ∀ parent,
            Forall2 (withImplicitIDs idFieldName) (flatten t)
              (flatten (Store.addImplicitIDs_table idFieldName parent t))) tables →
  ∀ parent, Forall2 (withImplicitIDs idFieldName) (flattenAll tables)
              (flattenAll (Store.addImplicitIDs idFieldName parent tables)).
Proof.
  induction 1 as [|t ts Ht _ IH]; intros parent; [constructor|].
  unfold Store.addImplicitIDs. rewrite fmap_cons.
  unfold flattenAll. rewrite !fmap_cons. cbn [concat].
  apply Forall2_app; [apply Ht | apply IH].
Qed.

Lemma addImplicitIDs_flatten t :
  ∀ parent, Forall2 (withImplicitIDs idFieldName) (flatten t)
              (flatten (Store.addImplicitIDs_table idFieldName parent t)).
Proof.
  induction t as [t IH] using Table_nested_ind. intros parent.
  rewrite (flatten_unfold t), (flatten_unfold (Store.addImplicitIDs_table _ _ _)).
  constructor; [apply addImplicitIDs_table_with|].
  rewrite addImplicitIDs_table_unfold. simpl. by apply addImplicitIDs_flattenAll.
Qed.

Lemma addImplicitIDs_elem_of_list tables :
  Forall (λ t, ∀ parent t',
            t' ∈ flatten (Store.addImplicitIDs_table idFieldName parent t) →
            ∃ q s, t' = Store.addImplicitIDs_table idFieldName q s) tables →
  ∀ parent t', t' ∈ flattenAll (Store.addImplicitIDs idFieldName parent tables) →
               ∃ q s, t' = Store.addImplicitIDs_table idFieldName q s.
Proof.
  intros Hall parent t' (top & (t & -> & Ht)%list_elem_of_fmap & Hin)%flattenAll_elem_of.
  rewrite Forall_forall in Hall. by eapply Hall.
Qed.

Lemma addImplicitIDs_elem_of_table t :
  ∀ parent t', t' ∈ flatten (Store.addImplicitIDs_table idFieldName parent t) →
               ∃ q s, t' = Store.addImplicitIDs_table idFieldName q s.
Proof.
  induction t as [t IH] using Table_nested_ind. intros parent t'.
  rewrite flatten_unfold. intros [->|Hin]%elem_of_cons; [eauto|].
  rewrite addImplicitIDs_table_unfold in Hin. simpl in Hin.
  by eapply addImplicitIDs_elem_of_list.
Qed.

Lemma addImplicitIDs_tableJoins_list tables :
  Forall (λ t, ∀ q parent,
            tableJoins parent (Store.addImplicitIDs_table idFieldName q t)
            = tableJoins parent t) tables →
  ∀ q parent, schemaJoins parent (Store.addImplicitIDs idFieldName q tables)
              = schemaJoins parent tables.
Proof.
  induction 1 as [|t ts Ht _ IH]; intros q parent; [done|].
  unfold Store.addImplicitIDs. rewrite fmap_cons, !schemaJoins_cons, Ht. f_equal. apply IH.
Qed.

Lemma addImplicitIDs_tableJoins t :
  ∀ q parent, tableJoins parent (Store.addImplicitIDs_table idFieldName q t) = tableJoins parent t.
Proof.
  induction t as [t IH] using Table_nested_ind. intros q parent.
  rewrite (tableJoins_unfold parent t), tableJoins_unfold, addImplicitIDs_table_unfold. simpl.
  by rewrite (addImplicitIDs_tableJoins_list _ IH).
Qed.

(** [addImplicitIDs] keeps the tables of a description, nested ones
    included, in their places with their names, joins and flags, and the
    fields of each table in front of those it adds: the identifier column,
    a number, and at most one column more, a number as well. A table nested
    in a table has a column of the name of the table around it with [_id]
    after it; when it declares such a column, of whatever type, it keeps it
    and gets the identifier column only. *)
Theorem implicit_ids_of_tables (parent : option string) (tables : list Table) :
  Forall2 (withImplicitIDs idFieldName) (flattenAll tables)
    (flattenAll (Store.addImplicitIDs idFieldName parent tables))
  ∧ (∀ s' c', s' ∈ flattenAll (Store.addImplicitIDs idFieldName parent tables) →
       c' ∈ Tables s' → Exists (λ f, FName f = Name s' +:+ "_id") (Fields c'))
  ∧ (∀ p c, Exists (λ f, FName f = p +:+ "_id") (Fields c) →
       Fields (Store.addImplicitIDs_table idFieldName (Some p) c)
       = Fields c ++ [{| FName := idFieldName; FType := ctyNumber; FUnique := false |}]).
Proof.
  split_and!.
  - apply addImplicitIDs_flattenAll, Forall_forall. intros t _. apply addImplicitIDs_flatten.
  - intros s' c' Hs' Hc'.
    destruct (addImplicitIDs_elem_of_list tables) with (parent := parent) (t' := s')
      as (q & s & ->); [|done|].
    { apply Forall_forall. intros t _. apply addImplicitIDs_elem_of_table. }
    rewrite addImplicitIDs_table_unfold in Hc' |- *. simpl in *.
    apply list_elem_of_fmap in Hc' as (c & -> & _). apply addImplicitIDs_table_parent.
  - intros p c Hhas. rewrite addImplicitIDs_table_unfold. simpl.
    unfold Store.hasField. rewrite bool_decide_eq_true_2; [done|].
    apply Exists_app. by left.
Qed.

(** The tables with their implicit identifiers declare the names of the
    description and have its joins: the schema graph of the one has the
    roots of the graph of the other, is built with an error exactly when
    the other is, and, when every join references a declared table, gives
    every node the same edges. *)
Theorem implicit_ids_keep_graph (tables : list Table) :
  names (Store.addImplicitIDs idFieldName None tables) = names tables
  ∧ schemaJoins None (Store.addImplicitIDs idFieldName None tables) = schemaJoins None tables
  ∧ Nodes (NewSchemaGraph (Store.addImplicitIDs idFieldName None tables)).1
    = Nodes (NewSchemaGraph tables).1
  ∧ (is_Some (NewSchemaGraph (Store.addImplicitIDs idFieldName None tables)).2
     ↔ is_Some (NewSchemaGraph tables).2)
  ∧ (joinsDeclared tables →
     ∀ x, edgesOf (NodeIndex (NewSchemaGraph (Store.addImplicitIDs idFieldName None tables)).1) x
          = edgesOf (NodeIndex (NewSchemaGraph tables).1) x).
Proof.
  set (tables' := Store.addImplicitIDs idFieldName None tables).
  assert (Forall2 (withImplicitIDs idFieldName) (flattenAll tables) (flattenAll tables')) as Hflat.
  { apply addImplicitIDs_flattenAll, Forall_forall. intros t _. apply addImplicitIDs_flatten. }
  assert (Forall2 (withImplicitIDs idFieldName) tables tables') as Htop.
  { unfold tables', Store.addImplicitIDs. apply Forall2_fmap_r, Forall_Forall2_diag, Forall_forall.
    intros t _. apply addImplicitIDs_table_with. }
  assert (names tables' = names tables) as Hnames.
  { unfold names. clear -Hflat. induction Hflat as [|t t' l l' (Hn & _) _ IH]; [done|].
    rewrite !fmap_cons. by rewrite Hn, IH. }
  assert (declared tables' = declared tables) as Hdeclared.
  { unfold declared. fold (names tables') (names tables). by rewrite Hnames. }
  assert (schemaJoins None tables' = schemaJoins None tables) as Hjoins.
  { apply addImplicitIDs_tableJoins_list, Forall_forall. intros t _. apply addImplicitIDs_tableJoins. }
  split_and!; [done | done | | |].
  - rewrite !NewSchemaGraph_roots. unfold rootNodes. clear -Htop.
    induction Htop as [|t t' l l' (Hn & Hj & _) _ IH]; [done|].
    rewrite !filter_cons, Hj. case_decide; rewrite ?fmap_cons, ?Hn, IH; done.
  - rewrite !NewSchemaGraph_error_iff, Hdeclared. generalize (declared tables). intros D.
    clear -Htop. induction Htop as [|t t' l l' (Hn & Hj & _) _ IH]; [done|].
    by rewrite !Exists_cons, Hj, IH.
  - intros Hdecl x.
    assert (joinsDeclared tables') as Hdecl'.
    { unfold joinsDeclared in *. rewrite Hdeclared. revert Hdecl.
      generalize (declared tables). intros D Hdecl. clear -Hflat Hdecl.
      induction Hflat as [|t t' l l' (Hn & Hj & _) _ IH]; [done|].
      apply Forall_cons in Hdecl as [? ?]. constructor; [by rewrite Hj | by apply IH]. }
    rewrite (proj2 (NewSchemaGraph_edges _ Hdecl')).
    rewrite (proj2 (NewSchemaGraph_edges _ Hdecl)). by rewrite Hjoins.
Qed.
End ImplicitIDs.

(** The theorem on a zoo whose shops declare the column [zoo_id]. *)
Lemma implicit_ids_keep_graph_witness :
  joinsDeclared zooWithShopColumn
  ∧ ∀ x, edgesOf (NodeIndex (NewSchemaGraph (Store.addImplicitIDs "_id" None zooWithShopColumn)).1) x
         = edgesOf (NodeIndex (NewSchemaGraph zooWithShopColumn).1) x.
Proof.
  assert (joinsDeclared zooWithShopColumn) as Hdecl by (repeat constructor).
  split; [exact Hdecl|].
  exact (proj2 (proj2 (proj2 (proj2 (implicit_ids_keep_graph "_id" zooWithShopColumn)))) Hdecl).
Defined.

(** * The schema that the store serves *)

Section ServedSchema.
Context {provider Schema DataBlocks : Type}.
Variable Save_provider : DataBlocks → provider → result (provider * (list Table * option error)).
Variable newGraphQLSchema : list Table → provider → result (Schema * option error).
Variable idFieldName : string.
Variable Create_provider : list Table → provider → result (provider * option error).


End ServedSchema.


(** * The tables that a traversal gets to *)

(** In a finite set each of whose elements is related to an element of the
    set, the relation has a cycle. *)
Lemma closed_set_cycle (R : string → string → Prop) (U : gset string) :
  (∀ u, u ∈ U → ∃ v, v ∈ U ∧ R u v) →
  ∀ k (S : gset string) u,
    size U ≤ size S + k → S ⊆ U → u ∈ U → u ∉ S → (∀ s, s ∈ S → tc R s u) →
    ∃ n, tc R n n.
Proof.
  intros Hnext. induction k as [|k IH]; intros S u Hsize HS Hu HuS Hreach.
  - exfalso. assert (size ({[u]} ∪ S) ≤ size U) as Hle by (apply subseteq_size; set_solver).
    rewrite size_union, size_singleton in Hle by set_solver. lia.
  - destruct (Hnext u Hu) as (v & Hv & Huv).
    destruct (decide (v = u)) as [->|Hne]; [exists u; by apply tc_once|].
    destruct (decide (v ∈ S)) as [HvS|HvS].
    + exists u. eapply tc_l; [exact Huv | by apply Hreach].
    + apply (IH ({[u]} ∪ S) v).
      * rewrite size_union, size_singleton by set_solver. lia.
      * set_solver.
      * done.
      * set_solver.
      * intros s [->%elem_of_singleton|Hs]%elem_of_union; [by apply tc_once|].
        eapply tc_r; [by apply Hreach | done].
Qed.

Lemma acyclic_declared_reachable tables x :
  joinsDeclared tables → ¬ cyclic tables →
  x ∈ declared tables → reachable (NewSchemaGraph tables).1 x.
Proof.
  intros Hdecl Hacyclic Hx. set (g := (NewSchemaGraph tables).1).
  destruct (dfsRun_total anyEdge (NodeIndex g) (Nodes g) ∅) as (order & seen' & Hrun).
  destruct (dfsRun_reachable g order seen' Hrun) as [_ Hreach].
  destruct (decide (x ∈ order)) as [?|Hnot]; [by apply Hreach|]. exfalso.
  set (U := declared tables ∖ list_to_set order).
  apply Hacyclic. apply (closed_set_cycle (belongsTo tables) U) with (k := size U) (S := ∅) (u := x).
  - intros u [Hu Hout%not_elem_of_list_to_set]%elem_of_difference.
    destruct (decide (Exists (λ e, Rel e = BelongsTo) (edgesOf (NodeIndex g) u)))
      as [(e & He & Hrel)%Exists_exists|Hnone].
    + exists (Node e). pose proof (belongsTo_edge tables u e He Hrel) as Hjoin.
      split; [|done]. apply elem_of_difference. split.
      * rewrite <-NewSchemaGraph_dom. by eapply built_edge_inside.
      * rewrite elem_of_list_to_set. intros (root & Hroot & Hpath)%Hreach.
        apply Hout, Hreach. exists root. split; [done|]. eapply rtc_r; [exact Hpath|].
        destruct Hjoin as [single Hjoin].
        destruct (joins_become_edges _ _ _ _ Hdecl Hjoin) as [Hedge _].
        by exists {| Node := u; Rel := relOf single |}.
    + exfalso. apply Hout, Hreach. exists u. split; [|done].
      apply noParent_root; [done | done |]. intros e He Hrel.
      apply Hnone, Exists_exists. eauto.
  - rewrite size_empty. lia.
  - apply empty_subseteq.
  - apply elem_of_difference. split; [done|]. by rewrite elem_of_list_to_set.
  - apply not_elem_of_empty.
  - by intros s' ?%elem_of_empty.
Qed.

(** When every join references a declared table and the belongs-to
    projection of the description has no cycle, every table of the
    description can be reached from the roots of its graph, and [Traverse]
    applies the callback to every declared table, to each of them once, up
    to the first call that panics or returns an error. *)
Theorem acyclic_tables_all_visited {St : Type}
    (fnVisit : string → St → result (St * option error)) (tables : list Table) (s : St) :
  joinsDeclared tables → ¬ cyclic tables →
  (∀ x, reachable (NewSchemaGraph tables).1 x ↔ x ∈ declared tables)
  ∧ ∃ order,
      Traverse fnVisit (NewSchemaGraph tables).1 s
      = Some (traverseResult (runVisits fnVisit order s))
      ∧ NoDup order
      ∧ ∀ x, x ∈ order ↔ x ∈ declared tables.
Proof.
  intros Hdecl Hacyclic.
  assert (∀ x, reachable (NewSchemaGraph tables).1 x ↔ x ∈ declared tables) as Hall.
  { intros x. split; [|by apply acyclic_declared_reachable].
    rewrite <-NewSchemaGraph_dom. apply built_reachable_inside. }
  split; [done|].
  destruct (dfsRun_total anyEdge (NodeIndex (NewSchemaGraph tables).1)
              (Nodes (NewSchemaGraph tables).1) ∅) as (order & seen' & Hrun).
  destruct (dfsRun_reachable _ order seen' Hrun) as [Hnd Hreach].
  exists order. split_and!; [by eapply Traverse_run | done |].
  intros x. by rewrite Hreach.
Qed.

Lemma zooWithShops_acyclic : ¬ cyclic zooWithShops.
Proof.
  intros [n Hcycle].
  assert (∀ a b, tc (belongsTo zooWithShops) a b → a = "shops" ∧ b = "zoo") as Hup.
  { intros a b Hab. induction Hab as [a b [single Hjoin]|a b c [single Hjoin] _ IH].
    - vm_compute in Hjoin. apply list_elem_of_singleton in Hjoin. by injection Hjoin as -> ->.
    - vm_compute in Hjoin. apply list_elem_of_singleton in Hjoin. injection Hjoin as -> -> _.
      by destruct IH. }
  by destruct (Hup n n Hcycle) as [-> ?].
Qed.

(** The theorem on the zoo with its shops, the callback recording the nodes. *)
Lemma acyclic_tables_all_visited_witness :
  joinsDeclared zooWithShops ∧ ¬ cyclic zooWithShops
  ∧ ∃ order,
      Traverse recordVisit (NewSchemaGraph zooWithShops).1 []
      = Some (traverseResult (runVisits recordVisit order []))
      ∧ NoDup order
      ∧ ∀ x, x ∈ order ↔ x ∈ declared zooWithShops.
Proof.
  split; [apply zooWithShops_declared|]. split; [apply zooWithShops_acyclic|].
  exact (proj2 (acyclic_tables_all_visited recordVisit zooWithShops []
                  zooWithShops_declared zooWithShops_acyclic)).
Defined.
